(** * logexec: a shallow embedding of [logexec.go] and its specification

    [logexec] runs one child process, forwards each line of the child's
    standard output and standard error to a syslog writer, relays signals
    and exits with the child's status.  This file embeds the three functions
    the specification talks about:

    - [getExitStatus] (logexec.go, lines 154-171),
    - [logPipe]       (logexec.go, lines 76-118), one forwarder,
    - the [select] loop of [main] (logexec.go, lines 199-227),

    and the two functions that prepare the run:

    - [UnixSyslog]    (logexec.go, lines 55-74),
    - [startCmd]      (logexec.go, lines 120-152).

    Go values are modelled as the program has them: [int] is a 64-bit
    two's-complement integer (a [Z] wrapped by [GoInt.int]), a byte slice is
    its visible bytes together with the spare bytes of its backing array, an
    [error] is [nil] ([None]) or an error value, and channels that the
    coordinator sets to [nil] are booleans saying whether they still are
    non-nil. *)

From Stdlib Require Import String Ascii.
From Stdlib Require Import ZArith List Bool Lia.
From Stdlib Require Import Strings.Byte.
From Stdlib Require DecimalString.
Import ListNotations.

Local Open Scope Z_scope.

(** ** Go's [int] *)

Module GoInt.

(** [int] on the 64-bit platforms: arithmetic wraps around silently. *)
Definition minInt : Z := - 2 ^ 63.
Definition maxInt : Z := 2 ^ 63 - 1.

Definition int (z : Z) : Z := (z + 2 ^ 63) mod 2 ^ 64 - 2 ^ 63.

Definition isInt (z : Z) : Prop := minInt <= z <= maxInt.

Definition sub (a b : Z) : Z := int (a - b).
Definition mul (a b : Z) : Z := int (a * b).

(** [%v] of an [int]: its decimal digits, with a sign when negative. *)
Definition Itoa (z : Z) : string :=
  DecimalString.NilZero.string_of_int (Z.to_int z).

End GoInt.

(** ** Strings *)

Module Strings.

Fixpoint HasPrefix (s prefix : string) {struct prefix} : bool :=
  match prefix with
  | EmptyString => true
  | String c prefix' =>
      match s with
      | EmptyString => false
      | String d s' => Ascii.eqb c d && HasPrefix s' prefix'
      end
  end.

(** [strings.Contains]: [substr] occurs in [s] at some offset. *)
Fixpoint Contains (s substr : string) : bool :=
  HasPrefix s substr ||
  match s with
  | EmptyString => false
  | String _ s' => Contains s' substr
  end.

End Strings.

(** ** Wait statuses (package [syscall], Linux encoding) *)

Module Syscall.

(** [type WaitStatus uint32]: the low seven bits hold the terminating
    signal (zero for a normal exit), bits 8 to 15 the exit code. *)
Definition WaitStatus := Z.

Definition mask : Z := 0x7F.
Definition exited : Z := 0x00.
Definition shift : Z := 8.

Definition Exited (w : WaitStatus) : bool := Z.land w mask =? exited.

Definition ExitStatus (w : WaitStatus) : Z :=
  if negb (Exited w) then -1 else Z.land (Z.shiftr w shift) 0xFF.

(** The status of a child that called [exit(code)]. *)
Definition ofExitCode (code : Z) : WaitStatus := Z.shiftl code shift.

(** The status of a child killed by signal [sig]. *)
Definition ofSignal (sig : Z) : WaitStatus := sig.

(** The zero value of the type, which a failed type assertion yields. *)
Definition zero : WaitStatus := 0.

End Syscall.

(** ** Errors *)

(** What [Sys()] of an [os.ProcessState] returns: a value of static type
    [any].  Its dynamic type is [syscall.WaitStatus] on every platform
    where the program builds (it imports [log/syslog], which needs a Unix
    port); [AnyOther] is a value of another dynamic type, for which the code
    has its [!ok] test, and which no run of the program meets. *)
Inductive any : Type :=
| AnyWaitStatus (w : Syscall.WaitStatus)
| AnyOther (typeName : string).

(** [exec.ExitError] embeds the [*os.ProcessState] of the child; its text is
    the text of that state ("exit status 3", "signal: killed").  This is
    the error as [cmd.Wait()] returns it, holding a process state; an
    [exec.ExitError] built without one is [ExitErrorWithoutState] below. *)
Record ExitError : Type := mkExitError {
  Sys : any;
  stateString : string
}.

(** The error values the program meets.  [io_EOF] is the sentinel [io.EOF],
    compared by identity; [errorString] stands for [errors.New(text)] and for
    every other error value, which the program only inspects through
    [Error()]; [exitError] is [*exec.ExitError]. *)
Inductive error : Type :=
| io_EOF
| errorString (text : string)
| exitError (ose : ExitError).

(** A Go value of interface type [error]: [None] is [nil]. *)
Definition goError := option error.

Definition Error (e : error) : string :=
  match e with
  | io_EOF => "EOF"
  | errorString text => text
  | exitError ose => stateString ose
  end.

(** [err == io.EOF] *)
Definition isEOF (e : error) : bool :=
  match e with
  | io_EOF => true
  | _ => false
  end.

(** [ose.Sys().(syscall.WaitStatus)] in its two-result form: the value and
    [ok]; when the assertion fails the value is the zero value. *)
Definition assertWaitStatus (v : any) : Syscall.WaitStatus * bool :=
  match v with
  | AnyWaitStatus w => (w, true)
  | AnyOther _ => (Syscall.zero, false)
  end.

(** ** [getExitStatus] *)

Definition getExitStatus (err : goError) : Z :=
  match err with
  | None => 0
  | Some e =>
      match e with
      | exitError ose =>
          let '(estatus, ok) := assertWaitStatus (Sys ose) in
          (* if !ok { } : the body holds only the comment
             'Unknown sys type, default to 1' and no statement *)
          let _ := if negb ok then tt else tt in
          Syscall.ExitStatus estatus
      | _ =>
          (* Unknown error type, default to 1 *)
          1
      end
  end.

(** A value of type [error] as a caller can pass it to [getExitStatus]:
    one of the errors above (or nil), or an [*exec.ExitError] whose embedded
    [*os.ProcessState] is nil.  [cmd.Wait()] never returns the latter. *)
Inductive errorArgument : Type :=
| WithState (err : goError)
| ExitErrorWithoutState.

(** A call of [getExitStatus]: [None] is the nil-pointer panic of
    [ose.Sys()] on line 165, the only statement of the function that can
    panic. *)
Definition getExitStatusCall (a : errorArgument) : option Z :=
  match a with
  | WithState err => Some (getExitStatus err)
  | ExitErrorWithoutState => None
  end.


(** ** Byte slices *)

Module Slice.

(** A slice [s] is a window on a backing array: [elems] are the [len(s)]
    bytes it shows, [spare] the bytes of the array after them, up to
    [cap(s)].  Re-slicing and [append] can reach into [spare]. *)
Record t : Type := mk {
  elems : list byte;
  spare : list byte
}.

Definition len (s : t) : Z := Z.of_nat (length (elems s)).
Definition cap (s : t) : Z :=
  Z.of_nat (length (elems s) + length (spare s)).
Definition array (s : t) : list byte := elems s ++ spare s.

(** The [nil] slice: no bytes, no capacity. *)
Definition nil : t := mk [] [].

(** [s[:h]].  Go checks [0 <= h <= cap(s)] and panics otherwise
    ([None]). *)
Definition upto (s : t) (h : Z) : option t :=
  if (0 <=? h) && (h <=? cap s)
  then Some (mk (firstn (Z.to_nat h) (array s))
                (skipn (Z.to_nat h) (array s)))
  else None.

(** [s[a:b]] for indices already known to satisfy [a <= b <= len(s)]. *)
Definition sub (s : t) (a b : nat) : t :=
  mk (firstn (b - a) (skipn a (array s))) (skipn b (array s)).

(** [append(s, x...)]: written in place when the spare capacity is
    enough, into a fresh array otherwise (whose extra capacity the
    program never uses). *)
Definition append (s : t) (x : list byte) : t :=
  if (length x <=? length (spare s))%nat
  then mk (elems s ++ x) (skipn (length x) (spare s))
  else mk (elems s ++ x) [].

Definition ofString (text : string) : t :=
  mk (list_byte_of_string text) [].

End Slice.

(** ** Package [bytes] *)

(** [bytes.TrimSpace(s)] returns [nil] when [s] is all white space and the
    sub-slice [s[start:stop]] between the first and the last byte that is
    not white space otherwise.  Which bytes are white space (Unicode's
    definition, over UTF-8) is the library's business: the development is
    parametric in the function that finds [start] and [stop]. *)
Class BytesPkg : Type := {
  trimRange : list byte -> option (nat * nat);
  trimRange_bounds : forall s a b,
    trimRange s = Some (a, b) -> (a <= b <= length s)%nat
}.

Definition TrimSpace `{BytesPkg} (s : Slice.t) : Slice.t :=
  match trimRange (Slice.elems s) with
  | None => Slice.nil
  | Some (start, stop) => Slice.sub s start stop
  end.

(** The instance used to run the model on concrete lines: the ASCII white
    space of Go's [asciiSpace] table.  It computes what [bytes.TrimSpace]
    computes on lines of ASCII bytes (every byte under 0x80), which is what
    the concrete runs below are made of; [bytes.TrimSpace] also trims the
    Unicode white space of a line in UTF-8, which this instance leaves in
    place.  No theorem about the program depends on it. *)
Module Ascii_trim.

Definition asciiSpace (c : byte) : bool :=
  match c with
  | x09 | x0a | x0b | x0c | x0d | x20 => true
  | _ => false
  end.

Fixpoint leadingSpaces (s : list byte) : nat :=
  match s with
  | c :: s' => if asciiSpace c then S (leadingSpaces s') else O
  | [] => O
  end.

Definition range (s : list byte) : option (nat * nat) :=
  let start := leadingSpaces s in
  let stop := Nat.max start (length s - leadingSpaces (rev s)) in
  if (start =? stop)%nat then None else Some (start, stop).

End Ascii_trim.

(** ** Readers and writers *)

(** One call of [s.ReadLine()] on the [bufio.Reader] returns either a line
    (or a fragment of one, [isPrefix] set, when the line does not fit the
    buffer) with a nil error, or no line and an error. *)
Inductive ReadLineResult : Type :=
| Line (line : Slice.t) (isPrefix : bool)
| Failed (err : error).

(** [io.Writer]: [Write] returns the new state of the writer and the error
    of the call ([logPipe] drops the byte count). *)
Class Writer (W : Type) : Type := Write : W -> list byte -> W * goError.

(** A writer that records what it is given and never fails. *)
#[export] Instance recorder : Writer (list (list byte)) :=
  fun w p => (w ++ [p], None).

(** A writer that accepts [n] more calls and then fails with [err]. *)
#[export] Instance failingAfter (err : error) : Writer nat :=
  fun n p => match n with
             | O => (O, Some err)
             | S n' => (n', None)
             end.

(** ** [logPipe] *)

Section LogPipe.

Context `{BytesPkg} {W : Type} `{Writer W}.

(** The [-maxline] flag, [*maxLogLine]. *)
Variable maxLogLine : Z.

(** The size [bufio.NewReaderSize(r, *maxLogLine*2)] asks of [make] for
    the buffer: the library raises a size under 16 to 16.  The reader
    exists only when [make] can allocate that many bytes (see [logPipe]);
    every slice [ReadLine] then returns lies in that buffer, so that this
    size bounds its capacity. *)
Definition bufferSize : Z := Z.max (GoInt.mul maxLogLine 2) 16.

(** Lines 106-110: trim, and cut an over-long line to [maxLogLine-3] bytes
    followed by three dots.  [None] is the run-time panic of the slice
    expression. *)
Definition boundedLine (line : Slice.t) : option Slice.t :=
  let l := TrimSpace line in
  if Slice.len l >? maxLogLine then
    match Slice.upto l (GoInt.sub maxLogLine 3) with
    | Some l' => Some (Slice.append l' (list_byte_of_string "..."))
    | None => None
    end
  else Some l.

(** The local state of one forwarder; [written] lists, in order, the
    argument of every call of [w.Write]. *)
Record Forwarder : Type := mkForwarder {
  lastWasPrefix : bool;
  sink : W;
  written : list (list byte)
}.

(** How a forwarder stops. *)
Inductive Ending : Type :=
| Reported (err : error)   (* logErr <- err; return *)
| Panicked                 (* run-time panic: slice bounds, or make *)
| AwaitingRead.            (* the reads given are consumed: blocked in ReadLine *)

Definition prematureEOF : error :=
  errorString ("Error reading: got EOF. Exiting" ++ String "010" "")%string.

Definition setLastWasPrefix (b : bool) (f : Forwarder) : Forwarder :=
  mkForwarder b (sink f) (written f).

(** Lines 93-104: the [switch].  The boolean says whether the case ends in
    [continue]. *)
Definition switchPrefix (isPrefix : bool) (f : Forwarder)
  : Forwarder * bool :=
  match isPrefix, lastWasPrefix f with
  | true, false => (setLastWasPrefix true f, false)
  | true, true => (f, true)
  | false, true => (setLastWasPrefix false f, true)
  | false, false => (f, false)
  end.

(** Lines 106-116: emit the line. *)
Definition emit (line : Slice.t) (f : Forwarder)
  : Forwarder * option Ending :=
  match boundedLine line with
  | None => (f, Some Panicked)
  | Some l =>
      let '(w', werr) := Write (sink f) (Slice.elems l) in
      let f' := mkForwarder (lastWasPrefix f) w'
                            (written f ++ [Slice.elems l]) in
      match werr with
      | Some e => (f', Some (Reported e))
      | None => (f', None)
      end
  end.

(** One turn of the [for] loop, lines 81-116. *)
Definition iteration (r : ReadLineResult) (f : Forwarder)
  : Forwarder * option Ending :=
  match r with
  | Failed err =>
      if isEOF err then (f, Some (Reported prematureEOF))
      else (f, Some (Reported err))
  | Line line isPrefix =>
      let '(f1, continue) := switchPrefix isPrefix f in
      if continue then (f1, None) else emit line f1
  end.

Fixpoint loop (reads : list ReadLineResult) (f : Forwarder)
  : Forwarder * Ending :=
  match reads with
  | [] => (f, AwaitingRead)
  | r :: reads' =>
      match iteration r f with
      | (f', Some e) => (f', e)
      | (f', None) => loop reads' f'
      end
  end.

(** What [make([]byte, n)] can do: the Go runtime panics when [n] is
    beyond what it can allocate, and the forwarder with it. *)
Variable canAllocate : Z -> bool.

(** Lines 76-118: the reader is made (line 78), then the loop runs. *)
Definition logPipe (w : W) (reads : list ReadLineResult)
  : Forwarder * Ending :=
  if canAllocate bufferSize
  then loop reads (mkForwarder false w [])
  else (mkForwarder false w [], Panicked).

End LogPipe.

(** ** The coordinator: the [select] loop of [main] *)

(** The signals of [passSigs], with the text [%v] prints for them. *)
Inductive Signal : Type := SIGHUP | SIGINT | SIGQUIT | SIGTERM.

Definition signalString (sig : Signal) : string :=
  match sig with
  | SIGHUP => "hangup"
  | SIGINT => "interrupt"
  | SIGQUIT => "quit"
  | SIGTERM => "terminated"
  end.

(** What one [select] can receive, one constructor per [case]. *)
Inductive Event : Type :=
| Sig (sig : Signal)       (* case sig := <-sigs *)
| Done                     (* case <-doneChan: both forwarders returned *)
| Waited (err : goError)   (* case err = <-cmdChan: the result of cmd.Wait() *)
| LogErr (err : goError).  (* case err = <-logErr: a forwarder's report *)

(** The variables of [main] the loop reads and writes, and what it did to
    the world.  [cmdChan] and [doneChan] say whether the channel variable is
    still non-nil. *)
Record Coordinator : Type := mkCoordinator {
  cmdChan : bool;
  doneChan : bool;
  stderrLog : list string;    (* texts written to the stderr syslog writer *)
  logged : list string;       (* messages of log.Printf and log.Fatalf *)
  signalled : list Signal;    (* calls of cmd.Process.Signal *)
  killed : bool               (* cmd.Process.Kill was called *)
}.

(** The state when the loop is entered (line 199). *)
Definition started : Coordinator :=
  mkCoordinator true true [] [] [] false.

(** The effect of one [case] body. *)
Inductive Control : Type :=
| Continue (c : Coordinator)
| Exit (code : Z) (c : Coordinator).   (* os.Exit(code) *)

(** How a run of the loop over finitely many events ends. *)
Inductive Outcome : Type :=
| Selecting (c : Coordinator)          (* blocked in select *)
| Returned (c : Coordinator)           (* the loop ended, main returns *)
| Exited (code : Z) (c : Coordinator). (* os.Exit(code) *)

Section Main.

(** The [-ignoresig] flag. *)
Variable ignoreSig : bool.

Definition badFileDescriptor : string := "bad file descriptor".
Definition gotEOF : string := "got EOF".

Definition exitDiagnostic (estatus : Z) : string :=
  ("Command return non-zero exit status: " ++ GoInt.Itoa estatus)%string.

Definition logDiagnostic (err : error) : string :=
  ("Error logging command output: " ++ Error err)%string.

(** A receive from a nil channel blocks for ever: its [case] is never
    chosen. *)
Definition ready (c : Coordinator) (ev : Event) : bool :=
  match ev with
  | Done => doneChan c
  | Waited _ => cmdChan c
  | Sig _ | LogErr _ => true
  end.

Definition logPrintf (msg : string) (c : Coordinator) : Coordinator :=
  mkCoordinator (cmdChan c) (doneChan c) (stderrLog c)
                (logged c ++ [msg]) (signalled c) (killed c).

Definition writeStderrLog (msg : string) (c : Coordinator) : Coordinator :=
  mkCoordinator (cmdChan c) (doneChan c) (stderrLog c ++ [msg])
                (logged c) (signalled c) (killed c).

Definition processSignal (sig : Signal) (c : Coordinator) : Coordinator :=
  mkCoordinator (cmdChan c) (doneChan c) (stderrLog c)
                (logged c) (signalled c ++ [sig]) (killed c).

Definition processKill (c : Coordinator) : Coordinator :=
  mkCoordinator (cmdChan c) (doneChan c) (stderrLog c)
                (logged c) (signalled c) true.

(** [log.Fatalf] prints and calls [os.Exit(1)]. *)
Definition logFatalf (msg : string) (c : Coordinator) : Control :=
  Exit 1 (logPrintf msg c).

(** Lines 216-225: is the reported error one the coordinator dies of? *)
Definition fatalLogErr (err : goError) : bool :=
  match err with
  | None => false
  | Some e =>
      negb (isEOF e) &&
      negb (Strings.Contains (Error e) badFileDescriptor)
  end.

(** The body of the chosen [case], lines 201-225. *)
Definition handle (c : Coordinator) (ev : Event) : Control :=
  match ev with
  | Sig sig =>
      if ignoreSig then
        Continue (logPrintf ("logexec caught signal " ++ signalString sig
                             ++ ", not passing through")%string c)
      else
        Continue (processSignal sig
                   (logPrintf ("logexec caught signal " ++ signalString sig
                               ++ ", passing through")%string c))
  | Done =>
      Continue (mkCoordinator (cmdChan c) false (stderrLog c)
                              (logged c) (signalled c) (killed c))
  | Waited err =>
      let c1 := mkCoordinator false (doneChan c) (stderrLog c)
                              (logged c) (signalled c) (killed c) in
      let estatus := getExitStatus err in
      if negb (estatus =? 0) then
        Exit estatus (writeStderrLog (exitDiagnostic estatus) c1)
      else Continue c1
  | LogErr err =>
      match err with
      | Some e =>
          if fatalLogErr err then
            let c1 := processKill c in
            let c2 := if negb (Strings.Contains (Error e) gotEOF)
                      then writeStderrLog (logDiagnostic e) c1
                      else c1 in
            logFatalf (logDiagnostic e) c2
          else Continue c
      | None => Continue c
      end
  end.

(** Line 199: [for !(cmdChan == nil && doneChan == nil)]. *)
Definition loopCondition (c : Coordinator) : bool :=
  negb (negb (cmdChan c) && negb (doneChan c)).

(** The loop, run over the events the scheduler offers in turn.  An event
    whose channel the coordinator has set to nil is never received. *)
Fixpoint mainLoop (events : list Event) (c : Coordinator) : Outcome :=
  if loopCondition c then
    match events with
    | [] => Selecting c
    | ev :: events' =>
        if ready c ev then
          match handle c ev with
          | Continue c' => mainLoop events' c'
          | Exit code c' => Exited code c'
          end
        else mainLoop events' c
    end
  else Returned c.

End Main.

(** The exit status the parent of [logexec] observes: zero when [main]
    returns, the low eight bits of the argument of [os.Exit] otherwise. *)
Definition exitCode (o : Outcome) : option Z :=
  match o with
  | Selecting _ => None
  | Returned _ => Some 0
  | Exited code _ => Some (Z.land code 0xFF)
  end.

(** ** Vocabulary of the specification *)

(** A logical line too long for the buffer, as [ReadLine] hands it over: a
    first fragment and any number of further ones, all flagged [isPrefix],
    then the rest of the line, not flagged. *)
Definition logicalLine (first : Slice.t) (middle : list Slice.t)
  (last : Slice.t) : list ReadLineResult :=
  Line first true :: map (fun s => Line s true) middle ++ [Line last false].

(** A line of the child as the reader delivers it: whole, or in
    fragments. *)
Inductive Delivery : Type :=
| Whole (line : Slice.t)
| Fragmented (first : Slice.t) (middle : list Slice.t) (last : Slice.t).

Definition readsOf (d : Delivery) : list ReadLineResult :=
  match d with
  | Whole line => [Line line false]
  | Fragmented first middle last => logicalLine first middle last
  end.

(** The part of a delivered line that the forwarder looks at. *)
Definition firstPart (d : Delivery) : Slice.t :=
  match d with
  | Whole line => line
  | Fragmented first _ _ => first
  end.

(** What the specification asks of an emitted line [out], given the trimmed
    line [t] and the cap: [t] itself when it fits; otherwise [cap] bytes, of
    which the last three are dots and the others a prefix of [t]. *)
Definition boundedBy (cap : Z) (t out : list byte) : Prop :=
  (Z.of_nat (length t) <= cap -> out = t) /\
  (cap < Z.of_nat (length t) ->
     Z.of_nat (length out) = cap /\
     skipn (length out - 3) out = list_byte_of_string "..." /\
     firstn (length out - 3) out = firstn (Z.to_nat (cap - 3)) t) /\
  Z.of_nat (length out) <= cap.

(** An event of a run in which the child exits with status zero and the
    streams close benignly: [cmd.Wait()] returned nil, and what a forwarder
    reports is the "bad file descriptor" error of a pipe already closed.
    Signals may come at any time. *)
Definition cleanEvent (ev : Event) : bool :=
  match ev with
  | Sig _ | Done => true
  | Waited None => true
  | Waited (Some _) => false
  | LogErr (Some e) => Strings.Contains (Error e) badFileDescriptor
  | LogErr None => false
  end.

(** What a run of the loop over [events], entered in state [c], may end in:
    still selecting, with a channel not yet nil; returned, having received
    whatever [c] was still waiting for, the child's status being zero; or
    exited, on a child status other than zero or on a fatal report of a
    forwarder. *)
Definition outcomeAllowed (c : Coordinator) (events : list Event)
  (o : Outcome) : Prop :=
  match o with
  | Selecting c' => cmdChan c' = true \/ doneChan c' = true
  | Returned c' =>
      (doneChan c = true -> In Done events) /\
      (cmdChan c = true ->
         exists err, In (Waited err) events /\ getExitStatus err = 0)
  | Exited code c' =>
      (exists err, In (Waited err) events /\
                   getExitStatus err = code /\ code <> 0) \/
      (exists e, In (LogErr (Some e)) events /\
                 fatalLogErr (Some e) = true /\ code = 1 /\
                 killed c' = true)
  end.

(** For the concrete runs: the bytes of a text, and the forwarder at the
    start of [logPipe], writing to the recorder. *)
Definition bytes (text : string) : list byte := list_byte_of_string text.

(** For the concrete runs: a runtime that allocates up to a gigabyte. *)
Definition upToGigabyte (n : Z) : bool := n <=? 2 ^ 30.

Definition fresh : @Forwarder (list (list byte)) := mkForwarder false [] [].

(** ** [UnixSyslog] and [startCmd] *)

(** The two streams of the child. *)
Inductive Stream : Type := Stdout | Stderr.

(** What the start of the program does to the world, in the order it does
    it.  Each action records the outcome the world gave ([ok]). *)
Inductive Action : Type :=
| ActNotify (sigs : list Signal)        (* signal.Notify(sigs, passSigs...) *)
| ActDial (network raddr : string) (priority : Z) (tag : string) (ok : bool)
                                         (* syslog.Dial(network, raddr, priority, tag) *)
| ActStdoutPipe (ok : bool)              (* cmd.StdoutPipe() *)
| ActStderrPipe (ok : bool)              (* cmd.StderrPipe() *)
| ActGoLogPipe (s : Stream)              (* go logPipe(...) *)
| ActStart (name : string) (args : list string) (ok : bool)
                                         (* cmd.Start() *)
| ActFatal (msg : string).               (* log.Fatalf(...) *)

(** The operating system as the start of the program uses it: every call
    takes the world to a new world and yields what Go returns. *)
Class OS (World W : Type) : Type := {
  Dial : World -> string -> string -> Z -> string -> World * (W + error);
  StdoutPipe : World -> World * goError;
  StderrPipe : World -> World * goError;
  Start : World -> string -> list string -> World * goError
}.

(** The world, and the actions taken so far. *)
Record Host (World : Type) : Type := mkHost {
  world : World;
  trace : list Action
}.

Arguments mkHost {World} _ _.
Arguments world {World} _.
Arguments trace {World} _.

Definition logTypes : list string := ["unixgram"; "unix"]%string.

Definition logPaths : list string :=
  ["/run/systemd/journal/syslog"; "/dev/log"; "/var/run/syslog";
   "/var/run/log"]%string.

(** How [startCmd] ends: in [log.Fatalf], or by returning the command and
    the error of [cmd.Start()], the two syslog writers being set. *)
Inductive StartCmd (W : Type) : Type :=
| StartFatal (msg : string)
| StartReturned (stdoutLog stderrLog : W) (err : goError).

Arguments StartFatal {W} _.
Arguments StartReturned {W} _ _ _.

(** [err == nil] *)
Definition isNil (err : goError) : bool :=
  match err with
  | None => true
  | Some _ => false
  end.

Section Startup.

Context {World W : Type} `{OS World W}.

Definition act (a : Action) (s : Host World) : Host World :=
  mkHost (world s) (trace s ++ [a]).

(** One call of [syslog.Dial]. *)
Definition dial (network raddr : string) (priority : Z) (tag : string)
  (s : Host World) : Host World * (W + error) :=
  let '(w', r) := Dial (world s) network raddr priority tag in
  (mkHost w' (trace s ++ [ActDial network raddr priority tag
                                  (match r with
                                   | inl _ => true
                                   | inr _ => false
                                   end)]), r).

(** Lines 64-71: the inner loop over the paths; [None] when it runs to its
    end. *)
Fixpoint dialPaths (network : string) (paths : list string)
  (priority : Z) (tag : string) (s : Host World) : Host World * option W :=
  match paths with
  | [] => (s, None)
  | path :: paths' =>
      match dial network path priority tag s with
      | (s', inr _) => dialPaths network paths' priority tag s'
      | (s', inl slog) => (s', Some slog)
      end
  end.

(** Lines 63-72: the outer loop over the networks. *)
Fixpoint dialNetworks (networks paths : list string)
  (priority : Z) (tag : string) (s : Host World) : Host World * option W :=
  match networks with
  | [] => (s, None)
  | network :: networks' =>
      match dialPaths network paths priority tag s with
      | (s', Some slog) => (s', Some slog)
      | (s', None) => dialNetworks networks' paths priority tag s'
      end
  end.

Definition deliveryError : error := errorString "Unix syslog delivery error".

Definition UnixSyslog (priority : Z) (tag : string) (s : Host World)
  : Host World * (W + error) :=
  match dialNetworks logTypes logPaths priority tag s with
  | (s', Some slog) => (s', inl slog)
  | (s', None) => (s', inr deliveryError)
  end.

(** The flags [-facility], [-stdoutLevel], [-stderrLevel] and [-tag], as
    [syslog.Priority] values and a string. *)
Variables facility stdoutLevel stderrLevel : Z.
Variable tag : string.

Definition fatalf (msg : string) (s : Host World) : Host World * StartCmd W :=
  (act (ActFatal msg) s, StartFatal msg).

Definition stdoutPipe (s : Host World) : Host World * goError :=
  let '(w', err) := StdoutPipe (world s) in
  (mkHost w' (trace s ++ [ActStdoutPipe (isNil err)]), err).

Definition stderrPipe (s : Host World) : Host World * goError :=
  let '(w', err) := StderrPipe (world s) in
  (mkHost w' (trace s ++ [ActStderrPipe (isNil err)]), err).

Definition start (cmdName : string) (args : list string) (s : Host World)
  : Host World * goError :=
  let '(w', err) := Start (world s) cmdName args in
  (mkHost w' (trace s ++ [ActStart cmdName args (isNil err)]),
   err).

(** Lines 120-152. *)
Definition startCmd (cmdName : string) (args : list string) (s : Host World)
  : Host World * StartCmd W :=
  let lvl := Z.lor stdoutLevel facility in
  match UnixSyslog lvl tag s with
  | (s1, inr err) =>
      fatalf ("Error initializing stdout syslog: " ++ Error err)%string s1
  | (s1, inl stdoutLog) =>
      let lvl := Z.lor stderrLevel facility in
      match UnixSyslog lvl tag s1 with
      | (s2, inr err) =>
          fatalf ("Error initializing stderr syslog: " ++ Error err)%string s2
      | (s2, inl stderrLog) =>
          match stdoutPipe s2 with
          | (s3, Some err) =>
              fatalf ("Error initializing stdout pipe: " ++ Error err)%string s3
          | (s3, None) =>
              match stderrPipe s3 with
              | (s4, Some err) =>
                  fatalf ("Error initializing stderr pipe: " ++ Error err)%string
                         s4
              | (s4, None) =>
                  let s5 := act (ActGoLogPipe Stderr)
                                (act (ActGoLogPipe Stdout) s4) in
                  let '(s6, err) := start cmdName args s5 in
                  (s6, StartReturned stdoutLog stderrLog err)
              end
          end
      end
  end.

End Startup.

(** The pairs [UnixSyslog] may dial, in the order of its loops. *)
Definition candidates : list (string * string) :=
  list_prod logTypes logPaths.

(** A world for concrete runs: [reachable] says which sockets accept a
    connection, the booleans whether the pipes and the start succeed; a
    writer is known by the socket and the priority it was dialled with. *)
#[export] Instance scriptedOS (reachable : string -> string -> bool)
  (pipesOk startOk : bool) : OS unit (string * string * Z) := {|
  Dial := fun w network raddr priority tag =>
    (w, if reachable network raddr then inl (network, raddr, priority)
        else inr (errorString "dial: no such file or directory"));
  StdoutPipe := fun w =>
    (w, if pipesOk then None else Some (errorString "exec: Stdout already set"));
  StderrPipe := fun w =>
    (w, if pipesOk then None else Some (errorString "exec: Stderr already set"));
  Start := fun w name args =>
    (w, if startOk then None else Some (errorString "exec: not found"))
|}.

(** The signals among the events, in order. *)
Fixpoint signalsOf (events : list Event) : list Signal :=
  match events with
  | [] => []
  | Sig sig :: events' => sig :: signalsOf events'
  | _ :: events' => signalsOf events'
  end.

Definition isSig (ev : Event) : bool :=
  match ev with
  | Sig _ => true
  | _ => false
  end.

(** A dial of the pair [c] that failed. *)
Definition failedDial (priority : Z) (tag : string) (c : string * string)
  : Action :=
  ActDial (fst c) (snd c) priority tag false.


(** A read whose line, if any, lies in the reader's buffer. *)
Definition fromBuffer (maxLogLine : Z) (r : ReadLineResult) : Prop :=
  match r with
  | Line line _ => Slice.cap line <= bufferSize maxLogLine
  | Failed _ => True
  end.

(** The state of the coordinator where a run stands or ended. *)
Definition finalState (o : Outcome) : Coordinator :=
  match o with
  | Selecting c | Returned c | Exited _ c => c
  end.


(** A dial with one of the priorities [priorities] and the tag [tag]. *)
Definition dialWith (priorities : list Z) (tag : string) (a : Action) : Prop :=
  match a with
  | ActDial _ _ priority tag' _ => In priority priorities /\ tag' = tag
  | _ => False
  end.

(** A report the coordinator does not die of: nil, [io.EOF] itself, or an
    error whose text holds "bad file descriptor". *)
Definition benignReport (ev : Event) : Prop :=
  match ev with
  | LogErr r => fatalLogErr r = false
  | _ => False
  end.

(** An event that neither ends the program nor closes [doneChan]: a
    signal, a child status of zero, a benign report. *)
Definition quietEvent (ev : Event) : Prop :=
  match ev with
  | Sig _ => True
  | Done => False
  | Waited err => getExitStatus err = 0
  | LogErr r => fatalLogErr r = false
  end.

(** A host on which only the stream socket [/dev/log] answers. *)
Definition onlyStreamDevLog : OS unit (string * string * Z) :=
  scriptedOS (fun network raddr =>
                String.eqb network "unix" && String.eqb raddr "/dev/log")
             true true.

Definition boot : Host unit := mkHost tt [].

(** An event that can come before the status of the child without ending
    the program: a signal, the closing of [doneChan], a benign report. *)
Definition beforeStatus (ev : Event) : Prop :=
  match ev with
  | Sig _ | Done => True
  | Waited _ => False
  | LogErr r => fatalLogErr r = false
  end.

(** * Properties *)

(** ** Integers *)

Module GoIntFacts.
Import GoInt.

Lemma int_small (z : Z) : isInt z -> int z = z.
Proof.
  unfold isInt, minInt, maxInt, int. intros Hz.
  rewrite Z.mod_small; lia.
Qed.

(** Below the range the value comes back raised by [2^64]. *)
Lemma int_below (z : Z) :
  minInt - 2 ^ 64 <= z < minInt -> int z = z + 2 ^ 64.
Proof.
  unfold minInt, int. intros Hz.
  replace (z + 2 ^ 63) with ((z + 2 ^ 63 + 2 ^ 64) + (-1) * 2 ^ 64) by ring.
  rewrite Z.mod_add by lia.
  rewrite Z.mod_small; lia.
Qed.

Lemma sub_3_exact (m : Z) : isInt m -> minInt + 3 <= m -> sub m 3 = m - 3.
Proof.
  unfold sub. intros [Hlo Hhi] H3. apply int_small.
  unfold isInt, minInt, maxInt in *. lia.
Qed.

Lemma sub_3_wraps (m : Z) :
  isInt m -> m < minInt + 3 -> sub m 3 = m - 3 + 2 ^ 64.
Proof.
  unfold sub. intros [Hlo Hhi] H3. apply int_below.
  unfold minInt, maxInt in *. lia.
Qed.

Lemma mul_2_wraps (m : Z) :
  isInt m -> m < minInt + 3 -> mul m 2 = m * 2 + 2 ^ 64.
Proof.
  unfold mul. intros [Hlo Hhi] H3. apply int_below.
  unfold minInt, maxInt in *. lia.
Qed.

End GoIntFacts.

(** ** Substrings *)

Module StringsFacts.
Import Strings.

Lemma HasPrefix_append (p s : string) : HasPrefix (p ++ s)%string p = true.
Proof.
  induction p as [|c p IH]; simpl; [reflexivity|].
  now rewrite Ascii.eqb_refl, IH.
Qed.

Lemma HasPrefix_elim (s p : string) :
  HasPrefix s p = true -> exists rest, s = (p ++ rest)%string.
Proof.
  revert s. induction p as [|c p IH]; intros s Hp; simpl in *.
  - now exists s.
  - destruct s as [|d s]; [discriminate|].
    apply andb_true_iff in Hp as [Hc Hp].
    apply Ascii.eqb_eq in Hc. subst d.
    destruct (IH s Hp) as [rest ->]. now exists rest.
Qed.

Lemma Contains_of_prefix (s p : string) :
  HasPrefix s p = true -> Contains s p = true.
Proof. intros Hp. destruct s; simpl; now rewrite Hp. Qed.

(** [Contains] finds exactly the occurrences of [substr]. *)
Lemma Contains_iff (s substr : string) :
  Contains s substr = true <->
  exists before after, s = (before ++ substr ++ after)%string.
Proof.
  split.
  - induction s as [|c s IH]; simpl; intros Hc.
    + rewrite orb_false_r in Hc.
      destruct (HasPrefix_elim _ _ Hc) as [rest E].
      now exists ""%string, rest.
    + apply orb_true_iff in Hc as [Hp | Hc].
      * destruct (HasPrefix_elim _ _ Hp) as [rest E].
        now exists ""%string, rest.
      * destruct (IH Hc) as (before & after & ->).
        now exists (String c before), after.
  - intros (before & after & ->).
    induction before as [|c before IH]; simpl.
    + apply Contains_of_prefix, HasPrefix_append.
    + rewrite IH. apply orb_true_r.
Qed.

Lemma append_assoc (a b c : string) :
  ((a ++ b) ++ c = a ++ (b ++ c))%string.
Proof. induction a; simpl; congruence. Qed.

Lemma Contains_append (s t substr : string) :
  Contains s substr = true -> Contains (s ++ t) substr = true.
Proof.
  rewrite !Contains_iff. intros (before & after & ->).
  exists before, (after ++ t)%string.
  now rewrite !append_assoc.
Qed.

End StringsFacts.

(** ** Lists *)

Lemma skipn_prefix {A : Type} (p x : list A) : skipn (length p) (p ++ x) = x.
Proof. induction p; simpl; auto. Qed.

Lemma firstn_prefix {A : Type} (p x : list A) : firstn (length p) (p ++ x) = p.
Proof. induction p; simpl; congruence. Qed.

(** ** Slices *)

Module SliceFacts.
Import Slice.

Lemma len_nonneg (s : t) : 0 <= len s.
Proof. unfold len. lia. Qed.

Lemma len_le_cap (s : t) : len s <= cap s.
Proof. unfold len, cap. lia. Qed.

Lemma sub_len (s : t) (a b : nat) :
  (a <= b <= length (elems s))%nat -> len (sub s a b) = Z.of_nat (b - a).
Proof.
  intros Hab. unfold len, sub, array. simpl.
  rewrite length_firstn, length_skipn, length_app. lia.
Qed.

Lemma sub_cap (s : t) (a b : nat) :
  (a <= b <= length (elems s))%nat -> cap (sub s a b) = cap s - Z.of_nat a.
Proof.
  intros Hab. unfold cap, sub, array. simpl.
  rewrite length_firstn, !length_skipn, length_app. lia.
Qed.

(** A bound no larger than the length keeps a prefix of the bytes shown. *)
Lemma upto_within (s : t) (h : Z) :
  0 <= h <= len s ->
  exists s', upto s h = Some s' /\ elems s' = firstn (Z.to_nat h) (elems s).
Proof.
  intros Hh. unfold upto.
  pose proof (len_le_cap s) as Hc.
  replace ((0 <=? h) && (h <=? cap s)) with true
    by (symmetry; apply andb_true_iff; split; apply Z.leb_le; lia).
  eexists. split; [reflexivity|]. simpl. unfold array.
  rewrite firstn_app.
  replace (Z.to_nat h - length (elems s))%nat with O by (unfold len in Hh; lia).
  simpl. apply app_nil_r.
Qed.

Lemma upto_negative (s : t) (h : Z) : h < 0 -> upto s h = None.
Proof.
  intros Hh. unfold upto.
  replace (0 <=? h) with false by (symmetry; apply Z.leb_gt; lia).
  reflexivity.
Qed.

Lemma upto_beyond (s : t) (h : Z) : cap s < h -> upto s h = None.
Proof.
  intros Hh. unfold upto.
  replace (h <=? cap s) with false by (symmetry; apply Z.leb_gt; lia).
  now rewrite andb_false_r.
Qed.

Lemma append_elems (s : t) (x : list byte) :
  elems (append s x) = elems s ++ x.
Proof. unfold append. now destruct (_ <=? _)%nat. Qed.

End SliceFacts.

(** ** [bytes.TrimSpace] *)

Section TrimSpaceFacts.

Context `{BytesPkg}.

Lemma TrimSpace_len (s : Slice.t) : Slice.len (TrimSpace s) <= Slice.len s.
Proof.
  unfold TrimSpace.
  destruct (trimRange (Slice.elems s)) as [[a b]|] eqn:E.
  - apply trimRange_bounds in E.
    rewrite SliceFacts.sub_len by assumption. unfold Slice.len. lia.
  - apply SliceFacts.len_nonneg.
Qed.

Lemma TrimSpace_cap (s : Slice.t) : Slice.cap (TrimSpace s) <= Slice.cap s.
Proof.
  unfold TrimSpace.
  destruct (trimRange (Slice.elems s)) as [[a b]|] eqn:E.
  - apply trimRange_bounds in E.
    rewrite SliceFacts.sub_cap by assumption. lia.
  - unfold Slice.cap. simpl. lia.
Qed.

End TrimSpaceFacts.

Lemma leadingSpaces_le (s : list byte) :
  (Ascii_trim.leadingSpaces s <= length s)%nat.
Proof.
  induction s as [|c s IH]; simpl; [lia|].
  destruct (Ascii_trim.asciiSpace c); lia.
Qed.

Lemma Ascii_trim_range_bounds (s : list byte) (a b : nat) :
  Ascii_trim.range s = Some (a, b) -> (a <= b <= length s)%nat.
Proof.
  unfold Ascii_trim.range. pose proof (leadingSpaces_le s) as Hs.
  destruct (_ =? _)%nat; [discriminate|].
  intros E. inversion E; subst. lia.
Qed.

#[export] Instance asciiBytes : BytesPkg := {|
  trimRange := Ascii_trim.range;
  trimRange_bounds := Ascii_trim_range_bounds
|}.

(** ** The emission step *)

Section BoundedLineFacts.

Context `{BytesPkg}.
Variable maxLogLine : Z.

(** A line that fits is emitted as trimmed. *)
Lemma boundedLine_fits (line : Slice.t) :
  Slice.len (TrimSpace line) <= maxLogLine ->
  boundedLine maxLogLine line = Some (TrimSpace line).
Proof.
  intros Hfit. unfold boundedLine.
  destruct (Z.gtb_spec (Slice.len (TrimSpace line)) maxLogLine); [lia|].
  reflexivity.
Qed.

(** An over-long line is cut when the cap leaves room for the dots. *)
Lemma boundedLine_cut (line : Slice.t) :
  GoInt.isInt maxLogLine -> 3 <= maxLogLine ->
  maxLogLine < Slice.len (TrimSpace line) ->
  exists l, boundedLine maxLogLine line = Some l /\
    Slice.elems l = firstn (Z.to_nat (maxLogLine - 3)) (Slice.elems (TrimSpace line))
                    ++ list_byte_of_string "...".
Proof.
  intros Hint H3 Hlong. unfold boundedLine.
  destruct (Z.gtb_spec (Slice.len (TrimSpace line)) maxLogLine); [|lia].
  rewrite GoIntFacts.sub_3_exact
    by (try assumption; unfold GoInt.isInt, GoInt.minInt in *; lia).
  destruct (SliceFacts.upto_within (TrimSpace line) (maxLogLine - 3))
    as (l' & -> & El'); [lia|].
  eexists. split; [reflexivity|].
  now rewrite SliceFacts.append_elems, El'.
Qed.

(** Under three, the bound of the slice expression is out of range: below
    zero, or, where the subtraction wraps around, far above the capacity
    of anything the 16-byte buffer holds. *)
Lemma boundedLine_panics (line : Slice.t) :
  GoInt.isInt maxLogLine -> maxLogLine < 3 ->
  Slice.cap line <= bufferSize maxLogLine ->
  maxLogLine < Slice.len (TrimSpace line) ->
  boundedLine maxLogLine line = None.
Proof.
  intros Hint H3 Hcap Hlong. unfold boundedLine.
  destruct (Z.gtb_spec (Slice.len (TrimSpace line)) maxLogLine); [|lia].
  destruct (Z_lt_ge_dec maxLogLine (GoInt.minInt + 3)) as [Hwrap | Hexact].
  - rewrite SliceFacts.upto_beyond; [reflexivity|].
    rewrite GoIntFacts.sub_3_wraps by assumption.
    pose proof (TrimSpace_cap line) as Hc.
    unfold bufferSize in Hcap.
    rewrite GoIntFacts.mul_2_wraps in Hcap by assumption.
    unfold GoInt.isInt, GoInt.minInt, GoInt.maxInt in *. lia.
  - rewrite GoIntFacts.sub_3_exact by (try assumption; lia).
    rewrite SliceFacts.upto_negative; [reflexivity | lia].
Qed.

(** The emission step fails only in the way [boundedLine_panics] says. *)
Lemma boundedLine_defined (line : Slice.t) :
  GoInt.isInt maxLogLine ->
  Slice.len (TrimSpace line) <= maxLogLine \/ 3 <= maxLogLine ->
  exists l, boundedLine maxLogLine line = Some l.
Proof.
  intros Hint Hok.
  destruct (Z_le_gt_dec (Slice.len (TrimSpace line)) maxLogLine) as [Hfit | Hlong].
  - eexists. now apply boundedLine_fits.
  - destruct Hok as [Hfit | H3]; [lia|].
    destruct (boundedLine_cut line Hint H3) as (l & E & _); [lia|].
    now exists l.
Qed.

End BoundedLineFacts.

(** ** The forwarder *)

Section LogPipeFacts.

Context `{BytesPkg} {W : Type} `{Writer W}.
Variable maxLogLine : Z.

Lemma iteration_complete (line : Slice.t) (f : @Forwarder W) :
  lastWasPrefix f = false ->
  iteration maxLogLine (Line line false) f = emit maxLogLine line f.
Proof. intros Hf. unfold iteration, switchPrefix. now rewrite Hf. Qed.

Lemma iteration_first (line : Slice.t) (f : @Forwarder W) :
  lastWasPrefix f = false ->
  iteration maxLogLine (Line line true) f
  = emit maxLogLine line (setLastWasPrefix true f).
Proof. intros Hf. unfold iteration, switchPrefix. now rewrite Hf. Qed.

Lemma iteration_middle (line : Slice.t) (f : @Forwarder W) :
  lastWasPrefix f = true ->
  iteration maxLogLine (Line line true) f = (f, None).
Proof. intros Hf. unfold iteration, switchPrefix. now rewrite Hf. Qed.

Lemma iteration_last (line : Slice.t) (f : @Forwarder W) :
  lastWasPrefix f = true ->
  iteration maxLogLine (Line line false) f
  = (setLastWasPrefix false f, None).
Proof. intros Hf. unfold iteration, switchPrefix. now rewrite Hf. Qed.

(** What [emit] does once the line is bounded: one call of [Write]. *)
Lemma emit_bounded (line l : Slice.t) (f : @Forwarder W) :
  boundedLine maxLogLine line = Some l ->
  emit maxLogLine line f
  = (mkForwarder (lastWasPrefix f) (fst (Write (sink f) (Slice.elems l)))
                 (written f ++ [Slice.elems l]),
     option_map Reported (snd (Write (sink f) (Slice.elems l)))).
Proof.
  intros E. unfold emit. rewrite E.
  destruct (Write (sink f) (Slice.elems l)) as [w' [e|]]; reflexivity.
Qed.

Lemma emit_panic (line : Slice.t) (f : @Forwarder W) :
  boundedLine maxLogLine line = None ->
  emit maxLogLine line f = (f, Some Panicked).
Proof. intros E. unfold emit. now rewrite E. Qed.

(** The bytes of a bounded line, in the words of the specification. *)
Lemma boundedLine_boundedBy (line l : Slice.t) :
  GoInt.isInt maxLogLine ->
  Slice.cap line <= bufferSize maxLogLine ->
  boundedLine maxLogLine line = Some l ->
  boundedBy maxLogLine (Slice.elems (TrimSpace line)) (Slice.elems l).
Proof.
  intros Hint Hcap E.
  destruct (Z_le_gt_dec (Slice.len (TrimSpace line)) maxLogLine) as [Hfit | Hlong].
  - rewrite boundedLine_fits in E by assumption.
    inversion E; subst l. unfold Slice.len in Hfit.
    repeat split; intros; try lia; reflexivity.
  - destruct (Z_lt_ge_dec maxLogLine 3) as [Hlow | H3].
    + rewrite boundedLine_panics in E by (try assumption; lia). discriminate.
    + destruct (boundedLine_cut maxLogLine line Hint) as (l' & E' & El');
        [lia | lia |].
      rewrite E' in E. inversion E; subst l'. clear E E'.
      unfold Slice.len in Hlong.
      set (p := firstn (Z.to_nat (maxLogLine - 3))
                       (Slice.elems (TrimSpace line))) in *.
      assert (Hp : length p = Z.to_nat (maxLogLine - 3))
        by (unfold p; rewrite length_firstn; lia).
      assert (Hcut : (length (Slice.elems l) - 3)%nat = length p)
        by (rewrite El', length_app; simpl; lia).
      repeat split; intros; try lia.
      * rewrite El', length_app. simpl. lia.
      * rewrite Hcut, El'. apply skipn_prefix.
      * rewrite Hcut, El'. apply firstn_prefix.
Qed.

(** The first fragment of a long line goes through the emission step. *)
Lemma iteration_first_bounded (line l : Slice.t) (f : @Forwarder W) :
  lastWasPrefix f = false ->
  boundedLine maxLogLine line = Some l ->
  iteration maxLogLine (Line line true) f
  = (mkForwarder true (fst (Write (sink f) (Slice.elems l)))
                 (written f ++ [Slice.elems l]),
     option_map Reported (snd (Write (sink f) (Slice.elems l)))).
Proof.
  intros Hf E. rewrite iteration_first by assumption.
  now rewrite (emit_bounded _ _ _ E).
Qed.

End LogPipeFacts.

(** ** Claims about the forwarder *)

Section LogPipeClaims.

Context `{BytesPkg} {W : Type} `{Writer W}.
Variable maxLogLine : Z.

(** C2.  A complete line read in the non-partial state, by a forwarder
    whose cap is an [int] and whose lines come out of the reader's buffer:
    the line is emitted whenever its trimmed form fits the cap or the cap
    is at least three; a line shorter than the cap is emitted as its
    trimmed form; and whatever is emitted is the trimmed line when that
    fits, and otherwise has exactly [maxLogLine] bytes, the last three
    being dots and the others a prefix of the trimmed line, so that its
    length never exceeds the cap. *)
Theorem emitted_line_is_bounded (line : Slice.t) (f : @Forwarder W) :
  GoInt.isInt maxLogLine ->
  Slice.cap line <= bufferSize maxLogLine ->
  lastWasPrefix f = false ->
  let f' := fst (iteration maxLogLine (Line line false) f) in
  let t := Slice.elems (TrimSpace line) in
  (Z.of_nat (length t) <= maxLogLine \/ 3 <= maxLogLine ->
     exists out, written f' = written f ++ [out]) /\
  (Slice.len line < maxLogLine -> written f' = written f ++ [t]) /\
  (forall out, written f' = written f ++ [out] ->
     boundedBy maxLogLine t out).
Proof.
  intros Hint Hcap Hf f' t. subst f'.
  rewrite iteration_complete by assumption.
  split; [|split].
  - intros Hok.
    destruct (boundedLine_defined maxLogLine line Hint Hok) as [l E].
    rewrite (emit_bounded _ _ _ _ E). simpl. now exists (Slice.elems l).
  - intros Hshort. pose proof (TrimSpace_len line) as Ht.
    rewrite (emit_bounded _ _ (TrimSpace line))
      by (apply boundedLine_fits; lia).
    reflexivity.
  - intros out Hout.
    destruct (boundedLine maxLogLine line) as [l|] eqn:E.
    + rewrite (emit_bounded _ _ _ _ E) in Hout. simpl in Hout.
      apply app_inv_head in Hout. inversion Hout; subst out.
      now apply boundedLine_boundedBy.
    + rewrite emit_panic in Hout by assumption. simpl in Hout.
      apply (f_equal (@length _)) in Hout.
      rewrite length_app in Hout. simpl in Hout. lia.
Qed.

(** C3, as amended.  A partial fragment met in the non-partial state sets
    [lastWasPrefix] and is then emitted like any other line: unless the
    truncation panics, the fragment, trimmed and bounded, is written to the
    sink, and the loop goes on when the write succeeds. *)
Theorem first_fragment_sets_flag_and_is_emitted
  (line l : Slice.t) (f : @Forwarder W) :
  lastWasPrefix f = false ->
  boundedLine maxLogLine line = Some l ->
  iteration maxLogLine (Line line true) f
  = (mkForwarder true (fst (Write (sink f) (Slice.elems l)))
                 (written f ++ [Slice.elems l]),
     option_map Reported (snd (Write (sink f) (Slice.elems l)))).
Proof.
  intros Hf E. now apply iteration_first_bounded.
Qed.

(** Once the flag is set, the rest of the logical line is read and
    dropped, and the flag is cleared. *)
Lemma loop_drops_rest (middle : list Slice.t) (last : Slice.t)
  (rest : list ReadLineResult) (f : @Forwarder W) :
  lastWasPrefix f = true ->
  loop maxLogLine
       (map (fun s => Line s true) middle ++ Line last false :: rest) f
  = loop maxLogLine rest (setLastWasPrefix false f).
Proof.
  intros Hf. induction middle as [|s middle IH]; cbn [map app loop].
  - now rewrite iteration_last.
  - now rewrite iteration_middle.
Qed.

(** A long logical line followed by further reads. *)
Lemma loop_logicalLine (first l : Slice.t) (middle : list Slice.t)
  (last : Slice.t) (rest : list ReadLineResult) (f : @Forwarder W) :
  lastWasPrefix f = false ->
  boundedLine maxLogLine first = Some l ->
  loop maxLogLine (logicalLine first middle last ++ rest) f
  = match Write (sink f) (Slice.elems l) with
    | (w', Some err) =>
        (mkForwarder true w' (written f ++ [Slice.elems l]), Reported err)
    | (w', None) =>
        loop maxLogLine rest
             (mkForwarder false w' (written f ++ [Slice.elems l]))
    end.
Proof.
  intros Hf E. unfold logicalLine.
  cbn [app loop]. rewrite <- app_assoc. cbn [app].
  rewrite (iteration_first_bounded _ _ _ _ Hf E).
  destruct (Write (sink f) (Slice.elems l)) as [w' [err|]]; cbn.
  - reflexivity.
  - now rewrite loop_drops_rest.
Qed.

(** C4, as amended.  Of a logical line that the reader delivers in
    fragments to a forwarder in the non-partial state, exactly one line is
    written, and it is the bounded form of the first fragment alone,
    unless the truncation of that fragment panics; the later fragments
    are read and dropped, and when the write succeeds the forwarder is back
    in the non-partial state, waiting for the next line. *)
Theorem long_line_emits_first_fragment_only
  (first l : Slice.t) (middle : list Slice.t) (last : Slice.t)
  (f : @Forwarder W) :
  lastWasPrefix f = false ->
  boundedLine maxLogLine first = Some l ->
  let run := loop maxLogLine (logicalLine first middle last) f in
  written (fst run) = written f ++ [Slice.elems l] /\
  match snd (Write (sink f) (Slice.elems l)) with
  | None => snd run = AwaitingRead /\ lastWasPrefix (fst run) = false
  | Some err => snd run = Reported err
  end.
Proof.
  intros Hf E run. subst run.
  rewrite <- (app_nil_r (logicalLine first middle last)).
  rewrite (loop_logicalLine _ _ _ _ _ _ Hf E).
  destruct (Write (sink f) (Slice.elems l)) as [w' [err|]]; cbn; auto.
Qed.

(** C8.  At every turn of the loop, whatever the state of the forwarder
    and whatever would be read next, [io.EOF] from [ReadLine] makes the
    forwarder send the premature-EOF error, whose text holds "got EOF",
    and return without writing anything. *)
Theorem eof_is_reported_as_error
  (f : @Forwarder W) (rest : list ReadLineResult) :
  iteration maxLogLine (Failed io_EOF) f = (f, Some (Reported prematureEOF))
  /\ loop maxLogLine (Failed io_EOF :: rest) f = (f, Reported prematureEOF)
  /\ prematureEOF <> io_EOF
  /\ Strings.Contains (Error prematureEOF) gotEOF = true.
Proof.
  repeat split; try reflexivity. discriminate.
Qed.

(** C10, as amended.  With a cap of at least three the bound of the slice
    expression lies between zero and the length of the over-long trimmed
    line, and the emission step never panics, whatever the line.  With a
    cap under three, which the program accepts, an over-long trimmed line
    makes the bound invalid and the step panic: the bound is negative,
    except for the three smallest values of [int], where the subtraction
    wraps around to a bound above the capacity. *)
Theorem truncation_bound (line : Slice.t) :
  GoInt.isInt maxLogLine ->
  let l := TrimSpace line in
  let h := GoInt.sub maxLogLine 3 in
  (3 <= maxLogLine ->
     (maxLogLine < Slice.len l -> 0 <= h <= Slice.len l) /\
     exists out, boundedLine maxLogLine line = Some out) /\
  (maxLogLine < 3 -> maxLogLine < Slice.len l ->
   Slice.cap line <= bufferSize maxLogLine ->
     (h < 0 \/ Slice.cap l < h) /\
     (GoInt.minInt + 3 <= maxLogLine -> h < 0) /\
     boundedLine maxLogLine line = None).
Proof.
  intros Hint l h. split.
  - intros H3. split.
    + intros Hlong. subst h.
      rewrite GoIntFacts.sub_3_exact
        by (try assumption; unfold GoInt.minInt; lia).
      lia.
    + apply boundedLine_defined; auto.
  - intros Hlow Hlong Hcap. subst h. repeat split.
    + destruct (Z_lt_ge_dec maxLogLine (GoInt.minInt + 3)) as [Hwrap | Hexact].
      * right. rewrite GoIntFacts.sub_3_wraps by assumption.
        pose proof (TrimSpace_cap line) as Hc. fold l in Hc.
        unfold bufferSize in Hcap.
        rewrite GoIntFacts.mul_2_wraps in Hcap by assumption.
        unfold GoInt.isInt, GoInt.minInt, GoInt.maxInt in *. lia.
      * left. rewrite GoIntFacts.sub_3_exact by (try assumption; lia). lia.
    + intros Hexact.
      rewrite GoIntFacts.sub_3_exact by assumption. lia.
    + now apply boundedLine_panics.
Qed.

End LogPipeClaims.

(** ** Exit statuses *)

Module SyscallFacts.
Import Syscall.

Lemma land_255 (z : Z) : Z.land z 0xFF = z mod 2 ^ 8.
Proof. change 0xFF with (Z.ones 8). apply Z.land_ones. lia. Qed.

Lemma ExitStatus_range (w : WaitStatus) :
  ExitStatus w = -1 \/ 0 <= ExitStatus w <= 255.
Proof.
  unfold ExitStatus. destruct (negb (Exited w)); [now left | right].
  rewrite land_255.
  pose proof (Z.mod_pos_bound (Z.shiftr w shift) (2 ^ 8)). lia.
Qed.

(** A child that exits with [code] has a status whose exit status is
    [code]. *)
Lemma ExitStatus_ofExitCode (code : Z) :
  0 <= code <= 255 -> ExitStatus (ofExitCode code) = code.
Proof.
  intros Hc. unfold ExitStatus, Exited, ofExitCode, shift, mask, exited.
  change 0x7F with (Z.ones 7).
  rewrite Z.land_ones by lia.
  rewrite Z.shiftl_mul_pow2 by lia.
  replace ((code * 2 ^ 8) mod 2 ^ 7) with 0
    by (symmetry; apply Z.mod_divide; [lia | exists (code * 2); lia]).
  cbn [Z.eqb negb].
  rewrite <- Z.shiftl_mul_pow2 by lia.
  rewrite Z.shiftr_shiftl_l by lia.
  rewrite Z.sub_diag, Z.shiftl_0_r, land_255.
  apply Z.mod_small. lia.
Qed.

(** The status the parent sees is never zero when the argument of
    [os.Exit] is -1 or between 1 and 255. *)
Lemma low_byte_nonzero (code : Z) :
  code = -1 \/ 1 <= code <= 255 -> Z.land code 0xFF <> 0.
Proof.
  intros [-> | Hc]; [discriminate|].
  rewrite land_255, Z.mod_small; lia.
Qed.

End SyscallFacts.

Lemma getExitStatus_range (err : goError) :
  getExitStatus err = -1 \/ 0 <= getExitStatus err <= 255.
Proof.
  destruct err as [[| |ose]|]; simpl; try (right; lia).
  destruct (assertWaitStatus (Sys ose)) as [estatus ok].
  apply SyscallFacts.ExitStatus_range.
Qed.


(** The [!ok] branch of line 166 is empty.  Were [Sys()] to hold a value
    of another type, which it does nowhere the program builds, the function
    would return the exit status of the zero wait status, 0, and not the 1
    of the comment in that branch. *)
Example getExitStatus_other_sys_type :
  getExitStatus
    (Some (exitError (mkExitError (AnyOther "struct{}") "exit status 3")))
  = 0.
Proof. reflexivity. Qed.

(** What the model of a call adds to the function: an [exec.ExitError]
    built without a process state, which is no wait outcome, makes
    [ose.Sys()] panic. *)
Example getExitStatus_without_state :
  getExitStatusCall ExitErrorWithoutState = None.
Proof. reflexivity. Qed.

(** ** Claims about the coordinator *)

Section MainFacts.

Variable ignoreSig : bool.

Lemma mainLoop_returned (events : list Event) (c : Coordinator) :
  loopCondition c = false -> mainLoop ignoreSig events c = Returned c.
Proof. intros Hc. destruct events; simpl; now rewrite Hc. Qed.

Lemma mainLoop_step (ev : Event) (events : list Event) (c : Coordinator) :
  loopCondition c = true ->
  mainLoop ignoreSig (ev :: events) c
  = if ready c ev then
      match handle ignoreSig c ev with
      | Continue c' => mainLoop ignoreSig events c'
      | Exit code c' => Exited code c'
      end
    else mainLoop ignoreSig events c.
Proof. intros Hc. simpl. now rewrite Hc. Qed.

Lemma loopCondition_cmdChan (c : Coordinator) :
  cmdChan c = true -> loopCondition c = true.
Proof. unfold loopCondition. now intros ->. Qed.

(** A signal changes neither channel variable, kills nothing and writes
    nothing to the stderr sink. *)
Lemma handle_Sig (c : Coordinator) (sig : Signal) :
  exists c', handle ignoreSig c (Sig sig) = Continue c' /\
    cmdChan c' = cmdChan c /\ doneChan c' = doneChan c /\
    killed c' = killed c /\ stderrLog c' = stderrLog c.
Proof.
  unfold handle. destruct ignoreSig; eexists; split; try reflexivity;
    now simpl.
Qed.

(** A report holding "bad file descriptor" is not fatal. *)
Lemma benign_report (e : error) :
  Strings.Contains (Error e) badFileDescriptor = true ->
  fatalLogErr (Some e) = false.
Proof. unfold fatalLogErr. intros ->. apply andb_false_r. Qed.

(** A run of clean events that still holds what the coordinator waits for
    ends with [main] returning, and leaves child and stderr sink alone. *)
Lemma clean_run (events : list Event) : forall c : Coordinator,
  forallb cleanEvent events = true ->
  (cmdChan c = true -> In (Waited None) events) ->
  (doneChan c = true -> In Done events) ->
  exists c', mainLoop ignoreSig events c = Returned c' /\
    killed c' = killed c /\ stderrLog c' = stderrLog c.
Proof.
  induction events as [|ev events IH]; intros c Hclean Hcmd Hdone.
  - exists c. split; [|now split]. apply mainLoop_returned.
    unfold loopCondition.
    destruct (cmdChan c); [now elim Hcmd|].
    destruct (doneChan c); [now elim Hdone|]. reflexivity.
  - destruct (loopCondition c) eqn:Hloop;
      [|exists c; split; [now apply mainLoop_returned | now split]].
    rewrite mainLoop_step by assumption.
    simpl in Hclean. apply andb_true_iff in Hclean as [Hev Hclean].
    destruct ev as [sig | | [e|] | [e|]]; simpl in Hev; try discriminate.
    + destruct (handle_Sig c sig) as (c' & -> & Hc1 & Hc2 & Hk & Hs).
      cbn [ready]. rewrite <- Hk, <- Hs. apply IH; auto.
      * rewrite Hc1. intros Hc. destruct (Hcmd Hc) as [E|Hin];
          [discriminate | assumption].
      * rewrite Hc2. intros Hc. destruct (Hdone Hc) as [E|Hin];
          [discriminate | assumption].
    + cbn [ready handle]. destruct (doneChan c) eqn:Hd.
      * apply (IH (mkCoordinator (cmdChan c) false (stderrLog c) (logged c)
                                 (signalled c) (killed c))); auto.
        -- cbn. intros Hc. destruct (Hcmd Hc) as [E|Hin];
             [discriminate | assumption].
        -- cbn. discriminate.
      * apply IH; auto.
        -- intros Hc. destruct (Hcmd Hc) as [E|Hin];
             [discriminate | assumption].
        -- rewrite Hd. discriminate.
    + cbn [ready handle getExitStatus]. destruct (cmdChan c) eqn:Hc.
      * cbn. apply (IH (mkCoordinator false (doneChan c) (stderrLog c)
                                      (logged c) (signalled c) (killed c)));
          auto.
        -- cbn. discriminate.
        -- cbn. intros Hd. destruct (Hdone Hd) as [E|Hin];
             [discriminate | assumption].
      * apply IH; auto.
        -- rewrite Hc. discriminate.
        -- intros Hd. destruct (Hdone Hd) as [E|Hin];
             [discriminate | assumption].
    + cbn [ready handle]. rewrite (benign_report e Hev).
      apply IH; auto.
      * intros Hc. destruct (Hcmd Hc) as [E|Hin];
          [discriminate | assumption].
      * intros Hd. destruct (Hdone Hd) as [E|Hin];
          [discriminate | assumption].
Qed.

(** An outcome allowed for the rest of a run is allowed for the run, when
    the event handled first accounts for each channel it set to nil. *)
Lemma outcomeAllowed_later (c c' : Coordinator) (ev : Event)
  (events : list Event) (o : Outcome) :
  outcomeAllowed c' events o ->
  (doneChan c = true -> doneChan c' = true \/ ev = Done) ->
  (cmdChan c = true ->
     cmdChan c' = true \/
     exists err, ev = Waited err /\ getExitStatus err = 0) ->
  outcomeAllowed c (ev :: events) o.
Proof.
  intros Ho Hd Hc. destruct o as [c2 | c2 | code c2]; simpl in *.
  - assumption.
  - destruct Ho as [Hod Hoc]. split.
    + intros Hdc. destruct (Hd Hdc) as [Hd' | ->]; [right; auto | now left].
    + intros Hcc. destruct (Hc Hcc) as [Hc' | (err & -> & E)].
      * destruct (Hoc Hc') as (err & Hin & E).
        exists err. split; [now right | assumption].
      * exists err. split; [now left | assumption].
  - destruct Ho as [(err & Hin & E) | (e & Hin & E)].
    + left. exists err. split; [now right | assumption].
    + right. exists e. split; [now right | assumption].
Qed.

(** What any run of the loop, from any state, can end in. *)
Lemma mainLoop_outcome (events : list Event) : forall c : Coordinator,
  outcomeAllowed c events (mainLoop ignoreSig events c).
Proof.
  induction events as [|ev events IH]; intros c.
  - simpl. unfold loopCondition.
    destruct (cmdChan c) eqn:Hc, (doneChan c) eqn:Hd; simpl; auto;
      split; intros; congruence.
  - destruct (loopCondition c) eqn:Hloop.
    2:{ rewrite mainLoop_returned by assumption.
        unfold loopCondition in Hloop. simpl.
        destruct (cmdChan c) eqn:Hc, (doneChan c) eqn:Hd; try discriminate.
        split; intros; congruence. }
    rewrite mainLoop_step by assumption.
    destruct ev as [sig | | err | [e|]].
    + destruct (handle_Sig c sig) as (c' & -> & Hc1 & Hc2 & _).
      cbn [ready]. apply (outcomeAllowed_later c c'); auto.
      * rewrite Hc2. auto.
      * rewrite Hc1. auto.
    + cbn [ready handle]. destruct (doneChan c) eqn:Hd.
      * eapply outcomeAllowed_later; [apply IH | auto | cbn; auto].
      * eapply outcomeAllowed_later; [apply IH | | auto].
        rewrite Hd. discriminate.
    + cbn [ready handle]. destruct (cmdChan c) eqn:Hc.
      * destruct (Z.eqb_spec (getExitStatus err) 0) as [E0 | E0]; cbn [negb].
        -- eapply outcomeAllowed_later; [apply IH | cbn; auto |].
           intros _. right. now exists err.
        -- left. exists err. split; [now left | now split].
      * eapply outcomeAllowed_later; [apply IH | auto |].
        rewrite Hc. discriminate.
    + cbn [ready handle].
      destruct (fatalLogErr (Some e)) eqn:Hfatal.
      * unfold logFatalf. right. exists e.
        split; [now left|]. repeat split; auto.
        destruct (negb _); reflexivity.
      * eapply outcomeAllowed_later; [apply IH | auto | auto].
    + cbn [ready handle].
      eapply outcomeAllowed_later; [apply IH | auto | auto].
Qed.

(** Events that can come before the status of the child leave [cmdChan]
    open, the child alive and the stderr sink as it is. *)
Lemma events_before_status (pre rest : list Event) :
  Forall beforeStatus pre ->
  forall c : Coordinator,
  cmdChan c = true ->
  exists c1,
    mainLoop ignoreSig (pre ++ rest) c = mainLoop ignoreSig rest c1 /\
    cmdChan c1 = true /\
    killed c1 = killed c /\ stderrLog c1 = stderrLog c.
Proof.
  induction 1 as [|ev pre Hev Hpre IH]; intros c Hc.
  - exists c. cbn. auto.
  - cbn [app]. rewrite mainLoop_step by now apply loopCondition_cmdChan.
    destruct ev as [sig | | err | r]; cbn [beforeStatus] in Hev.
    + destruct (handle_Sig c sig) as (c1 & -> & Hc1 & _ & Hk & Hs).
      cbn [ready]. rewrite <- Hk, <- Hs. apply IH. congruence.
    + cbn [ready handle]. destruct (doneChan c); [|now apply IH].
      apply (IH (mkCoordinator (cmdChan c) false (stderrLog c) (logged c)
                               (signalled c) (killed c))). exact Hc.
    + contradiction.
    + cbn [ready handle]. destruct r as [e|]; [|now apply IH].
      rewrite Hev. now apply IH.
Qed.

(** The [case] of the child's status, when the status is not zero. *)
Lemma nonzero_status_step (c : Coordinator) (err : goError)
  (events : list Event) :
  cmdChan c = true ->
  getExitStatus err <> 0 ->
  mainLoop ignoreSig (Waited err :: events) c
  = Exited (getExitStatus err)
           (mkCoordinator false (doneChan c)
              (stderrLog c ++ [exitDiagnostic (getExitStatus err)])
              (logged c) (signalled c) (killed c)).
Proof.
  intros Hc Hne.
  rewrite mainLoop_step by now apply loopCondition_cmdChan.
  cbn [ready handle]. rewrite Hc. cbn zeta.
  destruct (Z.eqb_spec (getExitStatus err) 0) as [E0 | E0]; [contradiction|].
  reflexivity.
Qed.

End MainFacts.

Section MainClaims.

Variable ignoreSig : bool.

(** C5.  When the child exits with status zero ([cmd.Wait()] returns nil)
    and every report of a forwarder is the benign "bad file descriptor"
    error, then, once the child's status and the closing of [doneChan]
    have both been delivered, the loop ends, [main] returns and the exit
    code of the program is 0; the child was not killed and nothing was
    written to the stderr sink. *)
Theorem clean_run_exits_zero (events : list Event) :
  forallb cleanEvent events = true ->
  In (Waited None) events ->
  In Done events ->
  exists c, mainLoop ignoreSig events started = Returned c /\
    exitCode (Returned c) = Some 0 /\
    killed c = false /\ stderrLog c = [].
Proof.
  intros Hclean Hcmd Hdone.
  destruct (clean_run ignoreSig events started Hclean) as (c & E & Hk & Hs);
    auto.
  exists c. repeat split; assumption.
Qed.

(** C6, as amended.  When the child exits with code [N] between 1 and 255
    and the coordinator receives that status before any fatal report of a
    forwarder (signals, the closing of [doneChan] and benign reports may
    come first), it writes the text "Command return non-zero exit status:
    N" to the stderr sink and calls [os.Exit(N)] at once: whether or not the
    forwarders are done, and whatever events are still to come, the program
    ends with exit code [N], and the child was not killed. *)
Theorem nonzero_child_exit_is_propagated
  (c : Coordinator) (w : Syscall.WaitStatus) (text : string) (N : Z)
  (pre post : list Event) :
  1 <= N <= 255 ->
  Syscall.ExitStatus w = N ->
  cmdChan c = true ->
  Forall beforeStatus pre ->
  let err := Some (exitError (mkExitError (AnyWaitStatus w) text)) in
  exists c',
    mainLoop ignoreSig (pre ++ Waited err :: post) c = Exited N c' /\
    stderrLog c' = stderrLog c ++ [exitDiagnostic N] /\
    Strings.Contains (exitDiagnostic N) "non-zero exit status" = true /\
    exitCode (Exited N c') = Some N /\
    killed c' = killed c.
Proof.
  intros HN Hw Hc Hpre err.
  destruct (events_before_status ignoreSig pre (Waited err :: post) Hpre c Hc)
    as (c1 & -> & Hc1 & Hk & Hs).
  assert (Est : getExitStatus err = N) by exact Hw.
  rewrite (nonzero_status_step ignoreSig c1 err post Hc1) by lia.
  rewrite Est. eexists. split; [reflexivity|]. cbn [stderrLog killed].
  rewrite Hs, Hk. split; [reflexivity|]. split; [|split; [|reflexivity]].
  - unfold exitDiagnostic. now apply StringsFacts.Contains_append.
  - cbn [exitCode]. f_equal.
    rewrite SyscallFacts.land_255. apply Z.mod_small. lia.
Qed.

(** C7.  While the loop runs, a report of a forwarder that is a stream
    error (not nil, not the [io.EOF] sentinel) and not a "bad file
    descriptor" error makes the coordinator kill the child and end the
    program with exit code 1, after writing "Error logging command output:
    ..." to the stderr sink when the error is not the premature EOF (and
    without writing it when it is); a report whose text holds "bad file
    descriptor" changes nothing, and the loop goes on to the next event. *)
Theorem stream_error_is_fatal_unless_benign
  (c : Coordinator) (e : error) (events : list Event) :
  loopCondition c = true ->
  (isEOF e = false ->
   Strings.Contains (Error e) badFileDescriptor = false ->
     exists c',
       mainLoop ignoreSig (LogErr (Some e) :: events) c = Exited 1 c' /\
       killed c' = true /\
       exitCode (Exited 1 c') = Some 1 /\
       (Strings.Contains (Error e) gotEOF = false ->
          stderrLog c' = stderrLog c ++ [logDiagnostic e]) /\
       (Strings.Contains (Error e) gotEOF = true ->
          stderrLog c' = stderrLog c)) /\
  (Strings.Contains (Error e) badFileDescriptor = true ->
     mainLoop ignoreSig (LogErr (Some e) :: events) c
     = mainLoop ignoreSig events c).
Proof.
  intros Hloop. split.
  - intros Heof Hbad.
    rewrite mainLoop_step by assumption.
    cbn [ready handle]. unfold fatalLogErr. rewrite Heof, Hbad. cbn [negb andb].
    unfold logFatalf. eexists. split; [reflexivity|].
    destruct (Strings.Contains (Error e) gotEOF); cbn;
      repeat split; intros; congruence.
  - intros Hbad. rewrite mainLoop_step by assumption.
    cbn [ready handle]. now rewrite benign_report.
Qed.

(** C9.  Every run of the loop from its start, over any finite sequence
    of events, is in one of three conditions: it is still selecting, and
    then one of the two channels is not yet nil; or the loop has ended
    and [main] returns, and then the closing of [doneChan] and a child
    status of zero were both among the events; or the program was ended
    at once with a nonzero exit code, by a child status other than zero
    or by a fatal report of a forwarder. *)
Theorem loop_ends_only_after_both_events (events : list Event) :
  match mainLoop ignoreSig events started with
  | Selecting c => cmdChan c = true \/ doneChan c = true
  | Returned c =>
      exitCode (Returned c) = Some 0 /\
      In Done events /\
      exists err, In (Waited err) events /\ getExitStatus err = 0
  | Exited code c =>
      exitCode (Exited code c) <> Some 0 /\
      ((exists err, In (Waited err) events /\
                    getExitStatus err = code /\ code <> 0) \/
       (exists e, In (LogErr (Some e)) events /\
                  fatalLogErr (Some e) = true /\ code = 1 /\
                  killed c = true))
  end.
Proof.
  pose proof (mainLoop_outcome ignoreSig events started) as Ho.
  destruct (mainLoop ignoreSig events started) as [c | c | code c];
    simpl in Ho.
  - assumption.
  - destruct Ho as [Hd Hc]. repeat split; auto.
  - split; [|assumption].
    cbn [exitCode]. intros E. inversion E as [E'].
    revert E'. apply SyscallFacts.low_byte_nonzero.
    destruct Ho as [(err & _ & Hs & Hn) | (e & _ & _ & -> & _)]; [|right; lia].
    destruct (getExitStatus_range err); [left | right]; lia.
Qed.

End MainClaims.

(** ** Whole runs of a forwarder *)

Section Runs.

Context `{BytesPkg} {W : Type} `{Writer W}.
Variable maxLogLine : Z.

(** A turn of the loop that stops the forwarder stops it on a report or on
    a panic. *)
Lemma iteration_stops (r : ReadLineResult) (f f' : @Forwarder W) :
  iteration maxLogLine r f <> (f', Some AwaitingRead).
Proof.
  destruct r as [line isPrefix | err]; cbn [iteration].
  - destruct (switchPrefix isPrefix f) as [f1 [|]]; [discriminate|].
    unfold emit. destruct (boundedLine maxLogLine line) as [l|];
      [|discriminate].
    destruct (Write (sink f1) (Slice.elems l)) as [w' [e|]]; discriminate.
  - destruct (isEOF err); discriminate.
Qed.

(** Reads that leave the forwarder waiting can be followed by more. *)
Lemma loop_app (pre rest : list ReadLineResult) :
  forall f f' : @Forwarder W,
  loop maxLogLine pre f = (f', AwaitingRead) ->
  loop maxLogLine (pre ++ rest) f = loop maxLogLine rest f'.
Proof.
  induction pre as [|r pre IH]; intros f f' Hrun; cbn [app loop] in *.
  - now inversion Hrun.
  - pose proof (iteration_stops r f f') as Hstop.
    destruct (iteration maxLogLine r f) as [f1 [e|]].
    + inversion Hrun; subst. now elim Hstop.
    + now apply IH.
Qed.

(** The end of the stream is reported whenever it comes. *)
Lemma eof_after_any_reads (pre rest : list ReadLineResult)
  (f f' : @Forwarder W) :
  loop maxLogLine pre f = (f', AwaitingRead) ->
  loop maxLogLine (pre ++ Failed io_EOF :: rest) f
  = (f', Reported prematureEOF).
Proof. intros Hrun. now rewrite (loop_app _ _ _ _ Hrun). Qed.

(** X18.  From the non-partial state, and so from the start of [logPipe],
    a sequence of lines, whole or fragmented, is logged one line each, in
    the order read, from the first part of each, as long as no truncation
    panics and the sink takes the writes; the forwarder is then back in the
    non-partial state. *)
Lemma loop_deliveries (ds : list Delivery) (outs : list Slice.t) :
  Forall2 (fun d out => boundedLine maxLogLine (firstPart d) = Some out)
          ds outs ->
  (forall w p, snd (Write w p) = None) ->
  forall f : @Forwarder W,
  lastWasPrefix f = false ->
  let run := loop maxLogLine (concat (map readsOf ds)) f in
  written (fst run) = written f ++ map Slice.elems outs /\
  snd run = AwaitingRead /\
  lastWasPrefix (fst run) = false.
Proof.
  intros Hall Hsink.
  induction Hall as [|d out ds outs Hd Hall IH]; intros f Hf run; subst run.
  - cbn. now rewrite app_nil_r.
  - cbn [map concat].
    pose proof (Hsink (sink f) (Slice.elems out)) as Hw.
    destruct d as [line | first middle last]; cbn [readsOf firstPart] in *.
    + cbn [app loop]. rewrite iteration_complete by assumption.
      rewrite (emit_bounded _ _ _ _ Hd), Hw. cbn [option_map].
      destruct (IH (mkForwarder (lastWasPrefix f)
                                (fst (Write (sink f) (Slice.elems out)))
                                (written f ++ [Slice.elems out])) Hf)
        as (Hwr & Hend & Hflag).
      cbn [written] in Hwr. rewrite Hwr, <- app_assoc. now cbn.
    + rewrite (loop_logicalLine _ _ _ _ _ _ _ Hf Hd).
      destruct (Write (sink f) (Slice.elems out)) as [w' r]. cbn in Hw.
      subst r.
      destruct (IH (mkForwarder false w' (written f ++ [Slice.elems out]))
                   eq_refl) as (Hwr & Hend & Hflag).
      cbn [written] in Hwr. rewrite Hwr, <- app_assoc. now cbn.
Qed.

End Runs.

(** ** What a forwarder can report *)

Section Reports.

Context `{BytesPkg} {W : Type} `{Writer W}.
Variable maxLogLine : Z.

(** X19.  A forwarder never reports [io.EOF] itself, unless its writer
    fails with that very error: the end of the stream, as read, is turned
    into the premature-EOF error.  So what the coordinator receives from a
    forwarder whose sink does not fail that way is never the sentinel. *)
Lemma report_is_not_EOF (reads : list ReadLineResult) :
  forall f : @Forwarder W,
  (forall w p, snd (Write w p) <> Some io_EOF) ->
  snd (loop maxLogLine reads f) <> Reported io_EOF.
Proof.
  intros f Hw. revert f.
  induction reads as [|r reads IH]; intros f; [discriminate|].
  cbn [loop].
  destruct r as [line isPrefix | err]; cbn [iteration].
  - destruct (switchPrefix isPrefix f) as [f1 [|]]; [apply IH|].
    unfold emit. destruct (boundedLine maxLogLine line) as [l|];
      [|discriminate].
    pose proof (Hw (sink f1) (Slice.elems l)) as Hne.
    destruct (Write (sink f1) (Slice.elems l)) as [w' [e|]]; cbn in *.
    + intros E. apply Hne. now inversion E.
    + apply IH.
  - destruct err; cbn; discriminate.
Qed.

End Reports.

(** ** The claims on concrete runs *)

(** The scenario of the specification: with a cap of 10 the line
    "0123456789ABCDEF" is logged as "0123456...". *)
Example scenario_maxline_10 :
  written (fst (logPipe 10 upToGigabyte []
                        [Line (Slice.ofString "0123456789ABCDEF") false]))
  = [bytes "0123456..."].
Proof. reflexivity. Qed.

(** With a cap whose double the runtime cannot allocate, the forwarder
    panics in [bufio.NewReaderSize] before it reads anything. *)
Example scenario_huge_maxline :
  logPipe (2 ^ 40) upToGigabyte []
          [Line (Slice.ofString "hello world") false]
  = (mkForwarder false [] [], Panicked).
Proof. reflexivity. Qed.

(** A short line is logged trimmed; then the stream ends. *)
Example scenario_hello_world :
  logPipe 8192 upToGigabyte []
          [Line (Slice.ofString "hello world") false; Failed io_EOF]
  = (mkForwarder false [bytes "hello world"] [bytes "hello world"],
     Reported prematureEOF).
Proof. reflexivity. Qed.

(** The scenario of the specification: [exit 7] in the child is the exit
    code of the program. *)
Example scenario_exit_7 :
  exitCode
    (mainLoop false
       [Waited (Some (exitError
          (mkExitError (AnyWaitStatus (Syscall.ofExitCode 7))
                       "exit status 7")))]
       started)
  = Some 7.
Proof. reflexivity. Qed.

(** A child killed by a signal has no exit status: [ExitStatus] is -1, and
    the program ends with 255. *)
Example scenario_child_killed :
  exitCode
    (mainLoop false
       [Waited (Some (exitError
          (mkExitError (AnyWaitStatus (Syscall.ofSignal 9))
                       "signal: killed")))]
       started)
  = Some 255.
Proof. reflexivity. Qed.

(** Witness of C2: the line of the scenario, with white space around it. *)
Lemma emitted_line_is_bounded_witness :
  let line := Slice.ofString "  0123456789ABCDEF " in
  GoInt.isInt 10 /\
  Slice.cap line <= bufferSize 10 /\
  lastWasPrefix fresh = false /\
  written (fst (iteration 10 (Line line false) fresh))
  = written fresh ++ [bytes "0123456..."] /\
  boundedBy 10 (Slice.elems (TrimSpace line)) (bytes "0123456...").
Proof.
  intros line.
  assert (Hint : GoInt.isInt 10)
    by (unfold GoInt.isInt, GoInt.minInt, GoInt.maxInt; lia).
  assert (Hcap : Slice.cap line <= bufferSize 10) by (vm_compute; discriminate).
  destruct (emitted_line_is_bounded 10 line fresh Hint Hcap eq_refl)
    as (_ & _ & Hbounded).
  split; [exact Hint|]. split; [exact Hcap|].
  split; [reflexivity|]. split; [reflexivity|].
  apply Hbounded. reflexivity.
Defined.

(** Counterexample to C3 as stated: the first fragment of a long line, met
    in the non-partial state, is written to the sink. *)
Lemma first_fragment_is_written :
  let r := iteration 10 (Line (Slice.ofString "0123456789ABCDEFGHIJ") true)
                     fresh in
  lastWasPrefix fresh = false /\
  lastWasPrefix (fst r) = true /\
  written (fst r) = [bytes "0123456..."] /\
  written (fst r) <> written fresh.
Proof. repeat split. discriminate. Qed.

(** Witness of C3 as amended. *)
Lemma first_fragment_sets_flag_and_is_emitted_witness :
  let line := Slice.ofString "0123456789ABCDEFGHIJ" in
  let l := Slice.mk (bytes "0123456...") (bytes "ABCDEFGHIJ") in
  lastWasPrefix fresh = false /\
  boundedLine 10 line = Some l /\
  iteration 10 (Line line true) fresh
  = (mkForwarder true [bytes "0123456..."] [bytes "0123456..."], None).
Proof.
  intros line l. split; [reflexivity|]. split; [reflexivity|].
  exact (first_fragment_sets_flag_and_is_emitted 10 line l fresh
           eq_refl eq_refl).
Defined.

(** Counterexample to C4 as stated: with [-maxline 2] the buffer has 16
    bytes, a line of 19 bytes comes in two fragments, and the truncation of
    the first one panics: no line is emitted for that logical line. *)
Lemma long_line_with_small_cap_emits_nothing :
  let run := loop 2 (logicalLine (Slice.ofString "0123456789ABCDEF") []
                                 (Slice.ofString "GHI")) fresh in
  bufferSize 2 = 16 /\
  written (fst run) = [] /\ snd run = Panicked.
Proof. repeat split. Qed.

(** Witness of C4 as amended: a line of 43 bytes read through a buffer of
    20. *)
Lemma long_line_emits_first_fragment_only_witness :
  let first := Slice.ofString "0123456789ABCDEFGHIJ" in
  let middle := [Slice.ofString "KLMNOPQRSTUVWXYZabcd"] in
  let last := Slice.ofString "xyz" in
  let l := Slice.mk (bytes "0123456...") (bytes "ABCDEFGHIJ") in
  let run := loop 10 (logicalLine first middle last) fresh in
  lastWasPrefix fresh = false /\
  boundedLine 10 first = Some l /\
  written (fst run) = [bytes "0123456..."] /\
  snd run = AwaitingRead /\ lastWasPrefix (fst run) = false.
Proof.
  intros first middle last l run.
  split; [reflexivity|]. split; [reflexivity|].
  exact (long_line_emits_first_fragment_only 10 first l middle last fresh
           eq_refl eq_refl).
Defined.

(** Counterexample to C10 as stated: at the smallest [int] the cap is under
    three and the trimmed line is over-long, but the bound of the slice
    expression is not negative; it has wrapped around to a value above the
    capacity, and the step panics all the same. *)
Lemma bound_wraps_at_minInt :
  let line := Slice.ofString "hello" in
  let h := GoInt.sub GoInt.minInt 3 in
  GoInt.isInt GoInt.minInt /\
  GoInt.minInt < 3 /\
  GoInt.minInt < Slice.len (TrimSpace line) /\
  h = 9223372036854775805 /\
  ~ h < 0 /\
  Slice.cap (TrimSpace line) < h /\
  boundedLine GoInt.minInt line = None.
Proof.
  repeat split; try (vm_compute; congruence).
Qed.

(** Witness of C10 as amended: a cap of 10 and a cap of 2. *)
Lemma truncation_bound_witness :
  let line := Slice.ofString "hello world, hello" in
  let short := Slice.ofString "hello" in
  GoInt.isInt 10 /\ GoInt.isInt 2 /\
  Slice.cap short <= bufferSize 2 /\
  (exists out, boundedLine 10 line = Some out) /\
  boundedLine 2 short = None.
Proof.
  intros line short.
  assert (Hint10 : GoInt.isInt 10)
    by (unfold GoInt.isInt, GoInt.minInt, GoInt.maxInt; lia).
  assert (Hint2 : GoInt.isInt 2)
    by (unfold GoInt.isInt, GoInt.minInt, GoInt.maxInt; lia).
  assert (Hcap : Slice.cap short <= bufferSize 2) by (vm_compute; discriminate).
  split; [assumption|]. split; [assumption|]. split; [assumption|]. split.
  - apply (truncation_bound 10 line Hint10). lia.
  - apply (truncation_bound 2 short Hint2); [lia | reflexivity | exact Hcap].
Defined.

(** Witness of C5: both forwarders report a closed pipe, a signal is
    relayed in between, and the child exits with status zero. *)
Lemma clean_run_exits_zero_witness :
  let closed := LogErr (Some (errorString "read |0: bad file descriptor")) in
  let events := [closed; Waited None; Sig SIGHUP; closed; Done] in
  forallb cleanEvent events = true /\
  In (Waited None) events /\ In Done events /\
  exists c, mainLoop false events started = Returned c /\
    exitCode (Returned c) = Some 0 /\
    killed c = false /\ stderrLog c = [].
Proof.
  intros closed events.
  assert (Hcmd : In (Waited None) events) by (right; left; reflexivity).
  assert (Hdone : In Done events) by (do 4 right; left; reflexivity).
  repeat split; try assumption.
  exact (clean_run_exits_zero false events eq_refl Hcmd Hdone).
Defined.

(** Counterexample to C6 as stated: the child exits with code 7, but a
    forwarder reports the end of its stream before the coordinator receives
    the status; the program ends with exit code 1 and nothing is written to
    the stderr sink. *)
Lemma fatal_report_comes_before_child_status :
  let err := Some (exitError (mkExitError (AnyWaitStatus (Syscall.ofExitCode 7))
                                          "exit status 7")) in
  let run := mainLoop false [LogErr (Some prematureEOF); Waited err; Done]
                      started in
  Syscall.ExitStatus (Syscall.ofExitCode 7) = 7 /\
  exitCode run = Some 1 /\
  stderrLog (finalState run) = [] /\
  exitCode run <> Some 7.
Proof. repeat split. discriminate. Qed.

(** Witness of C6 as amended: the child exits with code 7 after a signal
    and a benign report, while the forwarders still run. *)
Lemma nonzero_child_exit_is_propagated_witness :
  let err := Some (exitError (mkExitError (AnyWaitStatus (Syscall.ofExitCode 7))
                                          "exit status 7")) in
  let pre := [Sig SIGTERM;
              LogErr (Some (errorString "read |0: bad file descriptor"))] in
  1 <= 7 <= 255 /\
  Syscall.ExitStatus (Syscall.ofExitCode 7) = 7 /\
  cmdChan started = true /\
  Forall beforeStatus pre /\
  exists c',
    mainLoop false (pre ++ Waited err :: [Done]) started = Exited 7 c' /\
    stderrLog c' = stderrLog started ++ [exitDiagnostic 7] /\
    Strings.Contains (exitDiagnostic 7) "non-zero exit status" = true /\
    exitCode (Exited 7 c') = Some 7 /\
    killed c' = killed started.
Proof.
  intros err pre.
  assert (H7 : 1 <= 7 <= 255) by lia.
  assert (Hpre : Forall beforeStatus pre) by (repeat constructor).
  split; [exact H7|]. split; [reflexivity|]. split; [reflexivity|].
  split; [exact Hpre|].
  exact (nonzero_child_exit_is_propagated false started
           (Syscall.ofExitCode 7) "exit status 7" 7 pre [Done]
           H7 eq_refl eq_refl Hpre).
Defined.

(** Witness of C7: a broken pipe is fatal, a closed one is not. *)
Lemma stream_error_is_fatal_unless_benign_witness :
  let broken := errorString "write unixgram: broken pipe" in
  let closed := errorString "read |0: bad file descriptor" in
  loopCondition started = true /\
  isEOF broken = false /\
  Strings.Contains (Error broken) badFileDescriptor = false /\
  Strings.Contains (Error closed) badFileDescriptor = true /\
  (exists c', mainLoop false [LogErr (Some broken); Done] started = Exited 1 c'
              /\ killed c' = true) /\
  mainLoop false [LogErr (Some closed); Done] started
  = mainLoop false [Done] started.
Proof.
  intros broken closed.
  destruct (stream_error_is_fatal_unless_benign false started broken [Done]
              eq_refl) as [Hfatal _].
  destruct (Hfatal eq_refl eq_refl) as (c' & Hrun & Hkilled & _).
  destruct (stream_error_is_fatal_unless_benign false started closed [Done]
              eq_refl) as [_ Hbenign].
  do 4 (split; [reflexivity|]). split.
  - exists c'. split; assumption.
  - exact (Hbenign eq_refl).
Defined.

(** * Further properties of the program *)

(** ** [UnixSyslog] *)

Section UnixSyslogFacts.

Context {World W : Type} `{OS World W}.
Variable priority : Z.
Variable tag : string.

Lemma dial_trace (network raddr : string) (s s' : Host World) (r : W + error) :
  dial network raddr priority tag s = (s', r) ->
  trace s' = trace s ++ [ActDial network raddr priority tag
                                 (match r with inl _ => true | inr _ => false end)].
Proof.
  unfold dial. destruct (Dial (world s) network raddr priority tag) as [w' r'].
  intros E. inversion E; subst. reflexivity.
Qed.

(** The inner loop dials the paths in order and stops at the first that
    answers. *)
Lemma dialPaths_spec (network : string) (paths : list string) :
  forall s : Host World,
  match dialPaths network paths priority tag s with
  | (s', Some slog) =>
      exists failed path rest s0,
        paths = failed ++ path :: rest /\
        trace s0 = trace s ++ map (fun p => failedDial priority tag (network, p))
                                  failed /\
        dial network path priority tag s0 = (s', inl slog)
  | (s', None) =>
      trace s' = trace s ++ map (fun p => failedDial priority tag (network, p))
                                paths
  end.
Proof.
  induction paths as [|path paths IH]; intros s; cbn [dialPaths].
  - cbn. now rewrite app_nil_r.
  - destruct (dial network path priority tag s) as [s1 [slog | err]] eqn:E.
    + exists [], path, paths, s. cbn. rewrite app_nil_r. auto.
    + apply dial_trace in E. specialize (IH s1).
      destruct (dialPaths network paths priority tag s1) as [s' [slog|]].
      * destruct IH as (failed & p & rest & s0 & -> & Ht & Hd).
        exists (path :: failed), p, rest, s0. split; [reflexivity|].
        split; [|assumption].
        rewrite Ht, E, <- app_assoc. reflexivity.
      * rewrite IH, E, <- app_assoc. reflexivity.
Qed.

(** The two loops together go through the pairs of [list_prod] in order. *)
Lemma dialNetworks_spec (networks paths : list string) :
  forall s : Host World,
  match dialNetworks networks paths priority tag s with
  | (s', Some slog) =>
      exists failed network path rest s0,
        list_prod networks paths = failed ++ (network, path) :: rest /\
        trace s0 = trace s ++ map (failedDial priority tag) failed /\
        dial network path priority tag s0 = (s', inl slog)
  | (s', None) =>
      trace s' = trace s ++ map (failedDial priority tag)
                                (list_prod networks paths)
  end.
Proof.
  induction networks as [|network networks IH]; intros s;
    cbn [dialNetworks list_prod].
  - cbn. now rewrite app_nil_r.
  - pose proof (dialPaths_spec network paths s) as Hp.
    destruct (dialPaths network paths priority tag s) as [s1 [slog|]].
    + destruct Hp as (failed & path & rest & s0 & -> & Ht & Hd).
      exists (map (pair network) failed), network, path,
             (map (pair network) rest
              ++ list_prod networks (failed ++ path :: rest)), s0.
      split; [|split; [|assumption]].
      * rewrite map_app. cbn [map]. now rewrite <- app_assoc.
      * now rewrite Ht, map_map.
    + specialize (IH s1).
      destruct (dialNetworks networks paths priority tag s1) as [s' [slog|]].
      * destruct IH as (failed & n & path & rest & s0 & E & Ht & Hd).
        exists (map (pair network) paths ++ failed), n, path, rest, s0.
        split; [|split; [|assumption]].
        -- now rewrite E, <- app_assoc.
        -- now rewrite Ht, Hp, map_app, map_map, <- app_assoc.
      * now rewrite IH, Hp, map_app, map_map, <- app_assoc.
Qed.

(** What [UnixSyslog] does, read off its two loops. *)
Lemma UnixSyslog_spec (s : Host World) :
  match UnixSyslog priority tag s with
  | (s', inl slog) =>
      exists failed network path rest s0,
        candidates = failed ++ (network, path) :: rest /\
        trace s0 = trace s ++ map (failedDial priority tag) failed /\
        dial network path priority tag s0 = (s', inl slog)
  | (s', inr err) =>
      err = deliveryError /\
      trace s' = trace s ++ map (failedDial priority tag) candidates
  end.
Proof.
  unfold UnixSyslog.
  pose proof (dialNetworks_spec logTypes logPaths s) as Hn.
  destruct (dialNetworks logTypes logPaths priority tag s) as [s' [slog|]].
  - exact Hn.
  - split; [reflexivity | exact Hn].
Qed.

(** All that [UnixSyslog] adds to the trace are dials with its priority and
    tag. *)
Lemma UnixSyslog_dials (s : Host World) :
  exists dials,
    trace (fst (UnixSyslog priority tag s)) = trace s ++ dials /\
    Forall (dialWith [priority] tag) dials.
Proof.
  pose proof (UnixSyslog_spec s) as Hs.
  assert (Hfailed : forall cs,
            Forall (dialWith [priority] tag) (map (failedDial priority tag) cs)).
  { intros cs. apply Forall_forall. intros a Hin.
    apply in_map_iff in Hin as (c & <- & _). cbn. auto. }
  destruct (UnixSyslog priority tag s) as [s' [slog | err]]; cbn [fst].
  - destruct Hs as (failed & network & path & rest & s0 & _ & Ht & Hd).
    apply dial_trace in Hd.
    exists (map (failedDial priority tag) failed
            ++ [ActDial network path priority tag true]).
    split; [now rewrite Hd, Ht, <- app_assoc|].
    apply Forall_app. split; [apply Hfailed|].
    constructor; [cbn; auto | constructor].
  - destruct Hs as [_ Ht]. eexists. split; [exact Ht | apply Hfailed].
Qed.

(** X1.  [UnixSyslog] dials the eight pairs of a network and a path in a
    fixed order, every datagram socket before any stream socket, and stops
    at the first dial that succeeds: the writer it returns is the one that
    dial gave, every pair before it was dialled and failed, and nothing is
    dialled after it.  It fails only after all eight dials failed, and then
    with the error "Unix syslog delivery error", whatever the errors of the
    dials were. *)
Theorem UnixSyslog_first_success (s : Host World) :
  length candidates = 8%nat /\
  match UnixSyslog priority tag s with
  | (s', inl slog) =>
      exists failed network path rest s0,
        candidates = failed ++ (network, path) :: rest /\
        trace s0 = trace s ++ map (failedDial priority tag) failed /\
        dial network path priority tag s0 = (s', inl slog) /\
        trace s' = trace s0 ++ [ActDial network path priority tag true]
  | (s', inr err) =>
      err = deliveryError /\
      trace s' = trace s ++ map (failedDial priority tag) candidates
  end.
Proof.
  split; [reflexivity|].
  pose proof (UnixSyslog_spec s) as Hs.
  destruct (UnixSyslog priority tag s) as [s' [slog | err]]; [|exact Hs].
  destruct Hs as (failed & network & path & rest & s0 & E & Ht & Hd).
  exists failed, network, path, rest, s0. repeat split; try assumption.
  now apply dial_trace in Hd.
Qed.

(** X2.  When [UnixSyslog] returns a writer dialled on a stream socket
    (network "unix"), it has dialled the datagram socket of each of the four
    paths before, and each of these dials failed: a datagram socket that
    answers is always preferred, whatever its place among the paths. *)
Theorem stream_socket_is_the_last_resort
  (s s' : Host World) (slog : W) :
  UnixSyslog priority tag s = (s', inl slog) ->
  exists network path,
    In (network, path) candidates /\
    last (trace s') (ActFatal "") = ActDial network path priority tag true /\
    (network = "unix"%string ->
     forall p, In p logPaths ->
       In (failedDial priority tag ("unixgram"%string, p)) (trace s')).
Proof.
  intros E. pose proof (UnixSyslog_spec s) as Hs. rewrite E in Hs.
  destruct Hs as (failed & network & path & rest & s0 & Hc & Ht & Hd).
  apply dial_trace in Hd.
  exists network, path. split; [|split].
  - rewrite Hc. apply in_or_app. right. now left.
  - rewrite Hd. apply last_last.
  - intros -> p Hp.
    rewrite Hd, Ht. apply in_or_app. left. apply in_or_app. right.
    apply in_map. revert Hp.
    unfold candidates, logTypes, logPaths in Hc. cbn in Hc.
    do 8 (destruct failed as [|? failed];
          [cbn in Hc; inversion Hc; subst; try discriminate;
           cbn; intuition (subst; auto)
          | cbn in Hc; inversion Hc; subst; clear Hc; rename H2 into Hc]).
    destruct failed; discriminate.
Qed.

End UnixSyslogFacts.

(** ** [startCmd] *)

Module PriorityFacts.

(** A severity and a facility do not overlap. *)
Lemma land_level_facility (level facility : Z) :
  0 <= level <= 7 -> facility mod 8 = 0 -> Z.land level facility = 0.
Proof.
  intros Hl Hf.
  assert (E7 : Z.land level 7 = level).
  { change 7 with (Z.ones 3). rewrite Z.land_ones by lia.
    apply Z.mod_small. lia. }
  assert (Ef : Z.land 7 facility = 0).
  { rewrite Z.land_comm. change 7 with (Z.ones 3).
    rewrite Z.land_ones by lia. exact Hf. }
  rewrite <- E7, <- Z.land_assoc, Ef. apply Z.land_0_r.
Qed.

Lemma lor_level_facility (level facility : Z) :
  0 <= level <= 7 -> facility mod 8 = 0 ->
  Z.lor level facility = level + facility.
Proof.
  intros Hl Hf. pose proof (Z.add_lor_land level facility) as E.
  rewrite land_level_facility in E by assumption. lia.
Qed.

(** The severity is the low three bits, the facility the rest. *)
Lemma priority_parts (level facility : Z) :
  0 <= level <= 7 -> facility mod 8 = 0 ->
  Z.land (Z.lor level facility) 7 = level /\
  Z.lor level facility - Z.land (Z.lor level facility) 7 = facility.
Proof.
  intros Hl Hf. rewrite lor_level_facility by assumption.
  assert (E : Z.land (level + facility) 7 = level).
  { change 7 with (Z.ones 3). rewrite Z.land_ones by lia.
    change (2 ^ 3) with 8.
    rewrite Z.add_mod, Hf, Z.add_0_r, Z.mod_mod by lia.
    apply Z.mod_small. lia. }
  rewrite E. split; lia.
Qed.

End PriorityFacts.

Section StartupFacts.

Context {World W : Type} `{OS World W}.
Variables facility stdoutLevel stderrLevel : Z.
Variable tag : string.

Let levels : list Z :=
  [Z.lor stdoutLevel facility; Z.lor stderrLevel facility].

Lemma dialWith_weaken (priority : Z) (dials : list Action) :
  In priority levels ->
  Forall (dialWith [priority] tag) dials ->
  Forall (dialWith levels tag) dials.
Proof.
  intros Hin. apply Forall_impl. intros [] Ha; cbn in *; try contradiction.
  destruct Ha as [[<- | []] ->]. auto.
Qed.


(** What [startCmd] adds to the trace, by the way it ends. *)
Lemma startCmd_spec (cmdName : string) (args : list string) (s : Host World) :
  match startCmd facility stdoutLevel stderrLevel tag cmdName args s with
  | (s', StartFatal msg) =>
      exists dials pipes,
        trace s' = trace s ++ dials ++ pipes ++ [ActFatal msg] /\
        Forall (dialWith levels tag) dials /\
        (pipes = [] \/ pipes = [ActStdoutPipe false] \/
         pipes = [ActStdoutPipe true; ActStderrPipe false])
  | (s', StartReturned stdoutLog stderrLog err) =>
      exists dials,
        trace s' = trace s ++ dials
                   ++ [ActStdoutPipe true; ActStderrPipe true;
                       ActGoLogPipe Stdout; ActGoLogPipe Stderr;
                       ActStart cmdName args (isNil err)] /\
        Forall (dialWith levels tag) dials
  end.
Proof.
  unfold startCmd.
  destruct (UnixSyslog_dials (Z.lor stdoutLevel facility) tag s)
    as (d1 & Ht1 & Hd1).
  apply (dialWith_weaken _ _ (or_introl eq_refl)) in Hd1.
  destruct (UnixSyslog (Z.lor stdoutLevel facility) tag s)
    as [s1 [stdoutLog | err]]; cbn [fst] in Ht1.
  2:{ exists d1, []. cbn. rewrite Ht1, <- app_assoc. auto. }
  destruct (UnixSyslog_dials (Z.lor stderrLevel facility) tag s1)
    as (d2 & Ht2 & Hd2).
  apply (dialWith_weaken _ _ (or_intror (or_introl eq_refl))) in Hd2.
  assert (Hd : Forall (dialWith levels tag) (d1 ++ d2))
    by (apply Forall_app; now split).
  destruct (UnixSyslog (Z.lor stderrLevel facility) tag s1)
    as [s2 [stderrLog | err]]; cbn [fst] in Ht2.
  2:{ exists (d1 ++ d2), []. cbn. rewrite Ht2, Ht1, <- !app_assoc. auto. }
  unfold stdoutPipe. destruct (StdoutPipe (world s2)) as [w3 [err|]].
  { exists (d1 ++ d2), [ActStdoutPipe false]. cbn.
    rewrite Ht2, Ht1, <- !app_assoc. auto. }
  unfold stderrPipe. cbn [world trace].
  destruct (StderrPipe w3) as [w4 [err|]].
  { exists (d1 ++ d2), [ActStdoutPipe true; ActStderrPipe false]. cbn.
    rewrite Ht2, Ht1, <- !app_assoc. auto. }
  unfold start, act. cbn [world trace].
  destruct (Start w4 cmdName args) as [w5 err].
  exists (d1 ++ d2). cbn [trace isNil].
  rewrite Ht2, Ht1, <- !app_assoc. split; [reflexivity | exact Hd].
Qed.


(** X4.  For severities between 0 and 7 and a facility that is a multiple
    of 8, every connection [startCmd] dials carries the tag of the program
    and a priority made of the facility and of the severity of stdout or of
    stderr: the low three bits of the priority are one of the two
    severities and the rest is the facility, so that both writers log to
    the same facility. *)
Theorem dialled_priorities
  (cmdName : string) (args : list string) (s : Host World) :
  0 <= stdoutLevel <= 7 ->
  0 <= stderrLevel <= 7 ->
  facility mod 8 = 0 ->
  exists added,
    trace (fst (startCmd facility stdoutLevel stderrLevel tag cmdName args s))
    = trace s ++ added /\
    forall network raddr priority tag' ok,
      In (ActDial network raddr priority tag' ok) added ->
      tag' = tag /\
      priority - Z.land priority 7 = facility /\
      (Z.land priority 7 = stdoutLevel \/ Z.land priority 7 = stderrLevel).
Proof.
  intros Hout Herr Hfac.
  assert (Hdials : forall dials network raddr priority tag' ok,
            Forall (dialWith levels tag) dials ->
            In (ActDial network raddr priority tag' ok) dials ->
            tag' = tag /\
            priority - Z.land priority 7 = facility /\
            (Z.land priority 7 = stdoutLevel \/
             Z.land priority 7 = stderrLevel)).
  { intros dials network raddr priority tag' ok Hd Hin.
    rewrite Forall_forall in Hd. destruct (Hd _ Hin) as [Hp ->].
    split; [reflexivity|].
    destruct Hp as [<- | [<- | []]].
    - destruct (PriorityFacts.priority_parts stdoutLevel facility) as [E1 E2];
        auto.
    - destruct (PriorityFacts.priority_parts stderrLevel facility) as [E1 E2];
        auto. }
  pose proof (startCmd_spec cmdName args s) as Hs.
  destruct (startCmd facility stdoutLevel stderrLevel tag cmdName args s)
    as [s' [msg | stdoutLog stderrLog err]]; cbn [fst].
  - destruct Hs as (dials & pipes & Ht & Hd & Hp).
    exists (dials ++ pipes ++ [ActFatal msg]). split; [exact Ht|].
    intros network raddr priority tag' ok Hin.
    apply in_app_or in Hin as [Hin | Hin]; [now apply (Hdials dials network raddr priority tag' ok)|].
    exfalso. apply in_app_or in Hin as [Hin | Hin].
    + destruct Hp as [-> | [-> | ->]]; cbn in Hin; intuition discriminate.
    + cbn in Hin. intuition discriminate.
  - destruct Hs as (dials & Ht & Hd).
    eexists. split; [exact Ht|].
    intros network raddr priority tag' ok Hin.
    apply in_app_or in Hin as [Hin | Hin]; [now apply (Hdials dials network raddr priority tag' ok)|].
    exfalso. cbn in Hin. intuition discriminate.
Qed.

End StartupFacts.

(** ** More on the forwarder *)

Section ForwarderFacts.

Context `{BytesPkg} {W : Type} `{Writer W}.
Variable maxLogLine : Z.

Lemma switchPrefix_keeps (isPrefix : bool) (f : @Forwarder W) :
  written (fst (switchPrefix isPrefix f)) = written f /\
  sink (fst (switchPrefix isPrefix f)) = sink f.
Proof.
  unfold switchPrefix. destruct isPrefix, (lastWasPrefix f); now cbn.
Qed.

(** X7.  Whatever a forwarder reads, in whatever state it is, no line it
    writes is longer than the cap: if the cap is an [int], the lines read
    lie in the reader's buffer and the lines written so far are within the
    cap, so are all the lines written at the end of the run.  This holds
    for whole lines and for the first fragments of long lines alike. *)
Theorem written_lines_within_cap (reads : list ReadLineResult) :
  forall f : @Forwarder W,
  GoInt.isInt maxLogLine ->
  Forall (fromBuffer maxLogLine) reads ->
  Forall (fun out => Z.of_nat (length out) <= maxLogLine) (written f) ->
  Forall (fun out => Z.of_nat (length out) <= maxLogLine)
         (written (fst (loop maxLogLine reads f))).
Proof.
  intros f Hint Hreads. revert f.
  induction Hreads as [|r reads Hr Hreads IH]; intros f Hf; [exact Hf|].
  cbn [loop].
  destruct r as [line isPrefix | err]; cbn [iteration].
  - destruct (switchPrefix_keeps isPrefix f) as [Hw _].
    destruct (switchPrefix isPrefix f) as [f1 [|]]; cbn [fst] in Hw.
    + apply IH. now rewrite Hw.
    + unfold emit.
      destruct (boundedLine maxLogLine line) as [l|] eqn:E;
        [|cbn; now rewrite Hw].
      assert (Hl : Z.of_nat (length (Slice.elems l)) <= maxLogLine)
        by (apply (boundedLine_boundedBy maxLogLine line l Hint Hr E)).
      assert (Hf2 : Forall (fun out => Z.of_nat (length out) <= maxLogLine)
                           (written f1 ++ [Slice.elems l])).
      { apply Forall_app. split; [now rewrite Hw|]. now constructor. }
      destruct (Write (sink f1) (Slice.elems l)) as [w' [e|]].
      * exact Hf2.
      * apply IH. exact Hf2.
  - destruct (isEOF err); exact Hf.
Qed.

(** X8.  A line that is empty once trimmed (an empty line, or one of white
    space only) is not skipped: when the cap is not negative, the forwarder
    calls [Write] with no bytes for it. *)
Theorem blank_line_is_written_empty (line : Slice.t) (f : @Forwarder W) :
  lastWasPrefix f = false ->
  Slice.len (TrimSpace line) = 0 ->
  0 <= maxLogLine ->
  written (fst (iteration maxLogLine (Line line false) f)) = written f ++ [[]].
Proof.
  intros Hf Hblank Hcap.
  rewrite iteration_complete by assumption.
  rewrite (emit_bounded _ _ (TrimSpace line))
    by (apply boundedLine_fits; lia).
  cbn [fst written]. unfold Slice.len in Hblank.
  destruct (Slice.elems (TrimSpace line)); [reflexivity | discriminate].
Qed.

(** X9.  With a negative cap the forwarder panics on the first line it
    tries to emit, whatever the line (even an empty one): every length
    exceeds the cap, and the bound of the slice expression is out of
    range.  Nothing is written. *)
Theorem negative_cap_panics_at_once
  (line : Slice.t) (isPrefix : bool) (rest : list ReadLineResult)
  (f : @Forwarder W) :
  GoInt.isInt maxLogLine ->
  maxLogLine < 0 ->
  Slice.cap line <= bufferSize maxLogLine ->
  lastWasPrefix f = false ->
  snd (loop maxLogLine (Line line isPrefix :: rest) f) = Panicked /\
  written (fst (loop maxLogLine (Line line isPrefix :: rest) f)) = written f.
Proof.
  intros Hint Hneg Hcap Hf.
  assert (E : boundedLine maxLogLine line = None).
  { apply boundedLine_panics; try assumption; try lia.
    pose proof (SliceFacts.len_nonneg (TrimSpace line)). lia. }
  cbn [loop]. destruct isPrefix.
  - rewrite iteration_first, emit_panic by assumption. now cbn.
  - rewrite iteration_complete, emit_panic by assumption. now cbn.
Qed.

End ForwarderFacts.

Lemma failingAfter_Write (err : error) (n : nat) (p : list byte) :
  @Write nat (failingAfter err) n p
  = match n with
    | O => (O, Some err)
    | S n' => (n', None)
    end.
Proof. reflexivity. Qed.

(** X11.  A forwarder whose sink accepts [n] more writes and then fails
    writes at most [n + 1] more lines, whatever it reads: the write that
    fails is its last one, and when it has made it the forwarder has ended
    by reporting the error of the sink. *)
Theorem no_write_after_a_failed_write `{BytesPkg}
  (err : error) (maxLogLine : Z) (reads : list ReadLineResult) :
  forall f : @Forwarder nat,
  let run := @loop _ nat (failingAfter err) maxLogLine reads f in
  (length (written (fst run)) <= length (written f) + S (sink f))%nat /\
  (length (written (fst run)) = (length (written f) + S (sink f))%nat ->
   snd run = Reported err).
Proof.
  induction reads as [|r reads IH]; intros f run; subst run.
  - cbn. split; [lia | intros E; lia].
  - cbn [loop].
    destruct r as [line isPrefix | e]; cbn [iteration].
    + destruct (@switchPrefix_keeps nat isPrefix f) as [Hw Hs].
      destruct (switchPrefix isPrefix f) as [f1 [|]]; cbn [fst] in Hw, Hs.
      * rewrite <- Hw, <- Hs. apply IH.
      * unfold emit.
        destruct (boundedLine maxLogLine line) as [l|];
          [|cbn; rewrite Hw; split; [lia | intros E; lia]].
        rewrite failingAfter_Write, Hs.
        destruct (sink f) as [|n'].
        -- cbn. rewrite length_app, Hw. cbn. split; [lia | reflexivity].
        -- cbn iota. rewrite Hw.
           specialize (IH (mkForwarder (lastWasPrefix f1) n'
                                       (written f ++ [Slice.elems l]))).
           cbn [written sink] in IH.
           rewrite length_app in IH. cbn [length] in IH.
           destruct IH as [IH1 IH2]. split; [lia|].
           intros E. apply IH2. lia.
    + destruct (isEOF e); cbn; split; lia.
Qed.

(** ** More on the coordinator *)

Section CoordinatorFacts.

Variable ignoreSig : bool.

(** What the body of a [case] other than that of a signal leaves alone. *)
Lemma handle_keeps_signalled (c : Coordinator) (ev : Event) :
  isSig ev = false ->
  signalled (match handle ignoreSig c ev with
             | Continue c' | Exit _ c' => c'
             end) = signalled c.
Proof.
  destruct ev as [sig | | err | [e|]]; cbn [isSig handle];
    try discriminate; intros _.
  - reflexivity.
  - destruct (negb (getExitStatus err =? 0)); reflexivity.
  - destruct (fatalLogErr (Some e)); [|reflexivity].
    unfold logFatalf. destruct (negb _); reflexivity.
  - reflexivity.
Qed.

Lemma handle_Sig_signalled (c : Coordinator) (sig : Signal) :
  exists c', handle ignoreSig c (Sig sig) = Continue c' /\
    cmdChan c' = cmdChan c /\ doneChan c' = doneChan c /\
    signalled c' = signalled c ++ (if ignoreSig then [] else [sig]).
Proof.
  unfold handle. destruct ignoreSig; eexists; split; try reflexivity; cbn.
  - now rewrite app_nil_r.
  - auto.
Qed.

Lemma signalsOf_app (a b : list Event) :
  signalsOf (a ++ b) = signalsOf a ++ signalsOf b.
Proof.
  induction a as [|[] a IH]; cbn; auto. now rewrite IH.
Qed.

(** The signals relayed in a run are those of the events received. *)
Lemma mainLoop_signalled (events : list Event) : forall c : Coordinator,
  exists n,
    signalled (finalState (mainLoop ignoreSig events c))
    = signalled c
      ++ (if ignoreSig then [] else signalsOf (firstn n events)) /\
    ((exists c', mainLoop ignoreSig events c = Selecting c') ->
     n = length events).
Proof.
  induction events as [|ev events IH]; intros c.
  - exists O. split; [|reflexivity].
    cbn. destruct (loopCondition c), ignoreSig; cbn; now rewrite app_nil_r.
  - destruct (loopCondition c) eqn:Hloop.
    2:{ exists O. rewrite mainLoop_returned by assumption. split.
        - cbn. destruct ignoreSig; now rewrite app_nil_r.
        - intros [c' E]. discriminate. }
    rewrite mainLoop_step by assumption.
    destruct ev as [sig | | err | err].
    + destruct (handle_Sig_signalled c sig) as (c1 & -> & _ & _ & Hs).
      cbn [ready]. destruct (IH c1) as (n & Hn & Hall).
      exists (S n). split.
      * rewrite Hn, Hs, <- app_assoc. cbn [firstn signalsOf].
        destruct ignoreSig; reflexivity.
      * intros Hsel. cbn [length]. f_equal. auto.
    + cbn [ready handle]. destruct (doneChan c).
      * destruct (IH (mkCoordinator (cmdChan c) false (stderrLog c) (logged c)
                                    (signalled c) (killed c))) as (n & Hn & Hall).
        exists (S n). split; [exact Hn|].
        intros Hsel. cbn [length]. f_equal. auto.
      * destruct (IH c) as (n & Hn & Hall).
        exists (S n). split; [exact Hn|].
        intros Hsel. cbn [length]. f_equal. auto.
    + cbn [ready]. destruct (cmdChan c).
      * pose proof (handle_keeps_signalled c (Waited err) eq_refl) as Hk.
        destruct (handle ignoreSig c (Waited err)) as [c1 | code c1].
        -- destruct (IH c1) as (n & Hn & Hall).
           exists (S n). split; [now rewrite Hn, Hk|].
           intros Hsel. cbn [length]. f_equal. auto.
        -- exists O. split.
           ++ cbn. rewrite Hk. destruct ignoreSig; now rewrite app_nil_r.
           ++ intros [c' E]. discriminate.
      * destruct (IH c) as (n & Hn & Hall).
        exists (S n). split; [exact Hn|].
        intros Hsel. cbn [length]. f_equal. auto.
    + cbn [ready].
      pose proof (handle_keeps_signalled c (LogErr err) eq_refl) as Hk.
      destruct (handle ignoreSig c (LogErr err)) as [c1 | code c1].
      * destruct (IH c1) as (n & Hn & Hall).
        exists (S n). split; [now rewrite Hn, Hk|].
        intros Hsel. cbn [length]. f_equal. auto.
      * exists O. split.
        -- cbn. rewrite Hk. destruct ignoreSig; now rewrite app_nil_r.
        -- intros [c' E]. discriminate.
Qed.

(** X12.  The coordinator relays to the child the signals it receives, each
    once and in the order received, for as long as the loop runs: at any
    point of a run the signals sent to the child are those among the events
    handled so far, all of them when the loop is still selecting.  With
    [-ignoresig] it never signals the child. *)
Theorem signals_are_relayed_in_order
  (events : list Event) (c : Coordinator) :
  let o := mainLoop ignoreSig events c in
  (ignoreSig = true -> signalled (finalState o) = signalled c) /\
  (ignoreSig = false ->
     (exists n, signalled (finalState o)
                = signalled c ++ signalsOf (firstn n events)) /\
     (forall c', o = Selecting c' ->
        signalled c' = signalled c ++ signalsOf events)).
Proof.
  intros o. subst o.
  destruct (mainLoop_signalled events c) as (n & Hn & Hall).
  split.
  - intros E. rewrite E in *. now rewrite app_nil_r in Hn.
  - intros E. rewrite E in *. split; [now exists n|].
    intros c' Hsel.
    rewrite (Hall (ex_intro _ c' Hsel)), firstn_all in Hn.
    now rewrite Hsel in Hn.
Qed.

(** Signals and the flag [-ignoresig] have no part in how a run ends: the
    states may differ in what was logged and signalled only. *)
Lemma exitCode_without_signals (ignoreSig' : bool) (events : list Event) :
  forall c c' : Coordinator,
  cmdChan c = cmdChan c' -> doneChan c = doneChan c' ->
  exitCode (mainLoop ignoreSig events c)
  = exitCode (mainLoop ignoreSig'
                       (filter (fun ev => negb (isSig ev)) events) c').
Proof.
  induction events as [|ev events IH]; intros c c' Hc Hd.
  - cbn. unfold loopCondition. rewrite Hc, Hd.
    now destruct (negb (negb (cmdChan c') && negb (doneChan c'))).
  - assert (Hloop : loopCondition c = loopCondition c')
      by (unfold loopCondition; now rewrite Hc, Hd).
    destruct (loopCondition c') eqn:Hloop'.
    2:{ now rewrite !mainLoop_returned by assumption. }
    rewrite mainLoop_step by assumption.
    destruct ev as [sig | | err | [e|]]; cbn [filter isSig negb].
    + destruct (handle_Sig ignoreSig c sig) as (c1 & -> & Hc1 & Hd1 & _).
      cbn [ready]. apply IH; congruence.
    + rewrite mainLoop_step by assumption. cbn [ready handle].
      rewrite Hd. destruct (doneChan c') eqn:Hd'; apply IH; cbn; congruence.
    + rewrite mainLoop_step by assumption. cbn [ready handle].
      rewrite Hc. destruct (cmdChan c') eqn:Hc'; [|apply IH; congruence].
      destruct (negb (getExitStatus err =? 0)); [reflexivity|].
      apply IH; cbn; congruence.
    + rewrite mainLoop_step by assumption. cbn [ready handle].
      destruct (fatalLogErr (Some e)); [reflexivity|]. now apply IH.
    + rewrite mainLoop_step by assumption. cbn [ready handle]. now apply IH.
Qed.

(** X13.  What the coordinator itself does with a signal has no part in
    its later decisions: for one and the same sequence of child status,
    forwarder reports and closing of [doneChan], the exit code of the run
    is the same with the signal events and without them, and with and
    without [-ignoresig].  (A signal relayed to the child can change the
    status the child ends with, which is another sequence of events.) *)
Theorem signals_do_not_change_the_exit_code
  (ignoreSig' : bool) (events : list Event) (c : Coordinator) :
  exitCode (mainLoop ignoreSig events c)
  = exitCode (mainLoop ignoreSig'
                       (filter (fun ev => negb (isSig ev)) events) c).
Proof. now apply exitCode_without_signals. Qed.

(** X14.  The coordinator kills the child and writes to the stderr sink
    only when it ends the program: while the loop runs, and when [main]
    returns, the child was not killed and the stderr sink holds what it
    held; when the program is ended by [os.Exit], at most one line was
    added to the stderr sink, and the child was killed only if the exit
    code is 1. *)
Theorem no_kill_and_no_diagnostic_before_the_end
  (events : list Event) : forall c : Coordinator,
  match mainLoop ignoreSig events c with
  | Selecting c' | Returned c' =>
      killed c' = killed c /\ stderrLog c' = stderrLog c
  | Exited code c' =>
      (stderrLog c' = stderrLog c \/
       exists line, stderrLog c' = stderrLog c ++ [line]) /\
      (killed c' = killed c \/ code = 1)
  end.
Proof.
  induction events as [|ev events IH]; intros c.
  - cbn. destruct (loopCondition c); auto.
  - destruct (loopCondition c) eqn:Hloop;
      [|rewrite mainLoop_returned by assumption; auto].
    rewrite mainLoop_step by assumption.
    destruct ev as [sig | | err | [e|]].
    + destruct (handle_Sig ignoreSig c sig) as (c1 & -> & _ & _ & Hk & Hs).
      cbn [ready]. rewrite <- Hk, <- Hs. apply IH.
    + cbn [ready handle]. destruct (doneChan c); [|apply IH].
      apply (IH (mkCoordinator (cmdChan c) false (stderrLog c) (logged c)
                               (signalled c) (killed c))).
    + cbn [ready handle]. destruct (cmdChan c); [|apply IH].
      destruct (negb (getExitStatus err =? 0)).
      * cbn. split; [right; eauto | now left].
      * apply (IH (mkCoordinator false (doneChan c) (stderrLog c) (logged c)
                                 (signalled c) (killed c))).
    + cbn [ready handle]. destruct (fatalLogErr (Some e)); [|apply IH].
      unfold logFatalf.
      destruct (negb (Strings.Contains (Error e) gotEOF)); cbn.
      * split; [right; eauto | now right].
      * split; [now left | now right].
    + cbn [ready handle]. apply IH.
Qed.

(** X15.  A child that did not exit (it was killed by a signal, say) has
    no exit status: [ExitStatus] is -1.  When the coordinator receives the
    status of such a child before any fatal report of a forwarder (signals,
    the closing of [doneChan] and benign reports may come first), it writes
    "Command return non-zero exit status: -1" to the stderr sink and calls
    [os.Exit(-1)], and the exit code of the program is 255. *)
Theorem child_killed_by_signal_exits_255
  (c : Coordinator) (w : Syscall.WaitStatus) (text : string)
  (pre post : list Event) :
  Syscall.Exited w = false ->
  cmdChan c = true ->
  Forall beforeStatus pre ->
  let err := Some (exitError (mkExitError (AnyWaitStatus w) text)) in
  exists c',
    mainLoop ignoreSig (pre ++ Waited err :: post) c = Exited (-1) c' /\
    stderrLog c'
    = stderrLog c ++ ["Command return non-zero exit status: -1"%string] /\
    exitCode (Exited (-1) c') = Some 255.
Proof.
  intros Hw Hc Hpre err.
  destruct (events_before_status ignoreSig pre (Waited err :: post) Hpre c Hc)
    as (c1 & -> & Hc1 & Hk & Hs).
  assert (Est : getExitStatus err = -1).
  { subst err. cbn [getExitStatus assertWaitStatus Sys]. cbn zeta.
    unfold Syscall.ExitStatus. now rewrite Hw. }
  rewrite (nonzero_status_step ignoreSig c1 err post Hc1) by lia.
  rewrite Est. eexists. split; [reflexivity|]. cbn [stderrLog].
  rewrite Hs. split; reflexivity.
Qed.

(** A run of quiet events from a state in which [doneChan] is not nil
    leaves the loop running and [doneChan] as it is. *)
Lemma quiet_events_keep_running (pre rest : list Event) :
  Forall quietEvent pre ->
  forall c : Coordinator,
  doneChan c = true ->
  exists c',
    mainLoop ignoreSig (pre ++ rest) c = mainLoop ignoreSig rest c' /\
    doneChan c' = true /\
    killed c' = killed c /\ stderrLog c' = stderrLog c.
Proof.
  induction 1 as [|ev pre Hev Hpre IH]; intros c Hd.
  - exists c. cbn. auto.
  - cbn [app].
    rewrite mainLoop_step by (unfold loopCondition; rewrite Hd;
                              now rewrite andb_false_r).
    destruct ev as [sig | | err | r]; cbn [quietEvent] in Hev.
    + destruct (handle_Sig ignoreSig c sig) as (c1 & -> & _ & Hd1 & Hk & Hs).
      cbn [ready]. rewrite <- Hk, <- Hs. apply IH. congruence.
    + contradiction.
    + cbn [ready handle]. rewrite Hev. cbn [Z.eqb negb].
      destruct (cmdChan c); [|now apply IH].
      apply (IH (mkCoordinator false (doneChan c) (stderrLog c) (logged c)
                               (signalled c) (killed c))). exact Hd.
    + cbn [ready handle]. destruct r as [e|]; [|now apply IH].
      rewrite Hev. now apply IH.
Qed.

(** X16.  The end of a stream ends the program.  The premature-EOF error a
    forwarder reports when it reads [io.EOF] is fatal to the coordinator
    whenever it is received before [doneChan] is closed, which is when a
    forwarder can deliver it: if nothing ended the program before, the
    coordinator kills the child and ends the program with exit code 1,
    without a line on the stderr sink, even when the child had already
    exited with status zero. *)
Theorem end_of_stream_ends_the_program
  (pre post : list Event) (c : Coordinator) :
  Forall quietEvent pre ->
  doneChan c = true ->
  exists c',
    mainLoop ignoreSig (pre ++ LogErr (Some prematureEOF) :: post) c
    = Exited 1 c' /\
    exitCode (Exited 1 c') = Some 1 /\
    killed c' = true /\
    stderrLog c' = stderrLog c.
Proof.
  intros Hpre Hd.
  destruct (quiet_events_keep_running pre
              (LogErr (Some prematureEOF) :: post) Hpre c Hd)
    as (c1 & -> & Hd1 & Hk & Hs).
  rewrite mainLoop_step by (unfold loopCondition; rewrite Hd1;
                            now rewrite andb_false_r).
  eexists. split; [reflexivity|]. cbn. auto.
Qed.

(** X17.  Benign reports are without effect: any number of reports that
    are nil, [io.EOF] itself or "bad file descriptor" errors, received in
    a row, leave the run exactly as it would be without them. *)
Theorem benign_reports_change_nothing
  (noise events : list Event) (c : Coordinator) :
  Forall benignReport noise ->
  mainLoop ignoreSig (noise ++ events) c = mainLoop ignoreSig events c.
Proof.
  induction 1 as [|ev noise Hev Hnoise IH]; [reflexivity|].
  cbn [app]. destruct (loopCondition c) eqn:Hloop.
  - rewrite mainLoop_step by assumption.
    destruct ev as [sig | | err | r]; cbn [benignReport] in Hev;
      try contradiction.
    cbn [ready handle]. destruct r as [e|]; [|exact IH].
    rewrite Hev. exact IH.
  - now rewrite !mainLoop_returned by assumption.
Qed.

End CoordinatorFacts.

(** ** The further properties on concrete runs *)

(** [UnixSyslog] on the first host: five failed dials, then the writer. *)
Example scenario_dev_log_stream :
  @UnixSyslog unit _ onlyStreamDevLog 134 "logexec" boot
  = (mkHost tt (map (failedDial 134 "logexec") (firstn 5 candidates)
                ++ [ActDial "unix" "/dev/log" 134 "logexec" true]),
     inl ("unix"%string, "/dev/log"%string, 134)).
Proof. reflexivity. Qed.

(** Witness of X2. *)
Lemma stream_socket_is_the_last_resort_witness :
  let run := @UnixSyslog unit _ onlyStreamDevLog 134 "logexec" boot in
  snd run = inl ("unix"%string, "/dev/log"%string, 134) /\
  exists network path,
    In (network, path) candidates /\
    last (trace (fst run)) (ActFatal "")
    = ActDial network path 134 "logexec" true /\
    (network = "unix"%string ->
     forall p, In p logPaths ->
       In (failedDial 134 "logexec" ("unixgram"%string, p)) (trace (fst run))).
Proof.
  intros run. split; [reflexivity|].
  exact (@stream_socket_is_the_last_resort unit _ onlyStreamDevLog
           134 "logexec" boot (fst run) _ eq_refl).
Defined.

(** Witness of X4: the default flags, facility [LOG_LOCAL0] (128),
    severities [LOG_INFO] (6) and [LOG_WARNING] (4). *)
Lemma dialled_priorities_witness :
  0 <= 6 <= 7 /\ 0 <= 4 <= 7 /\ 128 mod 8 = 0 /\
  exists added,
    trace (fst (@startCmd unit _ onlyStreamDevLog 128 6 4 "logexec"
                          "sh" ["-c"; "true"]%string boot))
    = trace boot ++ added /\
    forall network raddr priority tag' ok,
      In (ActDial network raddr priority tag' ok) added ->
      tag' = "logexec"%string /\
      priority - Z.land priority 7 = 128 /\
      (Z.land priority 7 = 6 \/ Z.land priority 7 = 4).
Proof.
  assert (H6 : 0 <= 6 <= 7) by lia.
  assert (H4 : 0 <= 4 <= 7) by lia.
  assert (H128 : 128 mod 8 = 0) by reflexivity.
  split; [exact H6|]. split; [exact H4|]. split; [exact H128|].
  exact (@dialled_priorities unit _ onlyStreamDevLog 128 6 4 "logexec"
           "sh" ["-c"; "true"]%string boot H6 H4 H128).
Defined.

(** Witness of X7: a whole line, a long line in fragments and the end of
    the stream, read through a buffer of 20 bytes. *)
Lemma written_lines_within_cap_witness :
  let reads := logicalLine (Slice.ofString "0123456789ABCDEFGHIJ")
                           [Slice.ofString "KLMNOPQRSTUVWXYZabcd"]
                           (Slice.ofString "xyz")
               ++ [Line (Slice.ofString "  hello ") false; Failed io_EOF] in
  GoInt.isInt 10 /\
  Forall (fromBuffer 10) reads /\
  written (fst (loop 10 reads fresh)) = [bytes "0123456..."; bytes "hello"] /\
  Forall (fun out => Z.of_nat (length out) <= 10)
         (written (fst (loop 10 reads fresh))).
Proof.
  intros reads.
  assert (Hint : GoInt.isInt 10)
    by (unfold GoInt.isInt, GoInt.minInt, GoInt.maxInt; lia).
  assert (Hreads : Forall (fromBuffer 10) reads)
    by (repeat constructor; vm_compute; discriminate).
  split; [exact Hint|]. split; [exact Hreads|]. split; [reflexivity|].
  exact (written_lines_within_cap 10 reads fresh Hint Hreads (Forall_nil _)).
Defined.

(** Witness of X8: a line of blanks, with the ASCII white space. *)
Lemma blank_line_is_written_empty_witness :
  let line := Slice.ofString "    " in
  lastWasPrefix fresh = false /\
  Slice.len (TrimSpace line) = 0 /\
  0 <= 10 /\
  written (fst (iteration 10 (Line line false) fresh)) = written fresh ++ [[]].
Proof.
  intros line.
  assert (H10 : 0 <= 10) by lia.
  split; [reflexivity|]. split; [reflexivity|]. split; [exact H10|].
  exact (blank_line_is_written_empty 10 line fresh eq_refl eq_refl H10).
Defined.

(** Witness of X9: [-maxline -1] and an empty line. *)
Lemma negative_cap_panics_at_once_witness :
  let line := Slice.ofString "" in
  GoInt.isInt (-1) /\ -1 < 0 /\
  Slice.cap line <= bufferSize (-1) /\
  lastWasPrefix fresh = false /\
  snd (loop (-1) [Line line false] fresh) = Panicked /\
  written (fst (loop (-1) [Line line false] fresh)) = written fresh.
Proof.
  intros line.
  assert (Hint : GoInt.isInt (-1))
    by (unfold GoInt.isInt, GoInt.minInt, GoInt.maxInt; lia).
  assert (Hneg : -1 < 0) by lia.
  assert (Hcap : Slice.cap line <= bufferSize (-1))
    by (vm_compute; discriminate).
  split; [exact Hint|]. split; [exact Hneg|]. split; [exact Hcap|].
  split; [reflexivity|].
  exact (negative_cap_panics_at_once (-1) line false [] fresh
           Hint Hneg Hcap eq_refl).
Defined.

(** Witness of X15: the child is killed by signal 9, after a signal was
    relayed to it. *)
Lemma child_killed_by_signal_exits_255_witness :
  let err := Some (exitError (mkExitError (AnyWaitStatus (Syscall.ofSignal 9))
                                          "signal: killed")) in
  let pre := [Sig SIGTERM] in
  Syscall.Exited (Syscall.ofSignal 9) = false /\
  cmdChan started = true /\
  Forall beforeStatus pre /\
  exists c',
    mainLoop false (pre ++ Waited err :: []) started = Exited (-1) c' /\
    stderrLog c'
    = stderrLog started ++ ["Command return non-zero exit status: -1"%string] /\
    exitCode (Exited (-1) c') = Some 255.
Proof.
  intros err pre.
  assert (Hpre : Forall beforeStatus pre) by (repeat constructor).
  split; [reflexivity|]. split; [reflexivity|]. split; [exact Hpre|].
  exact (child_killed_by_signal_exits_255 false started
           (Syscall.ofSignal 9) "signal: killed" pre [] eq_refl eq_refl Hpre).
Defined.

(** Witness of X16: the child exits with status zero, then a forwarder
    reports the end of its stream. *)
Lemma end_of_stream_ends_the_program_witness :
  let pre := [Sig SIGHUP; Waited None] in
  Forall quietEvent pre /\
  doneChan started = true /\
  exists c',
    mainLoop false (pre ++ LogErr (Some prematureEOF) :: [Done]) started
    = Exited 1 c' /\
    exitCode (Exited 1 c') = Some 1 /\
    killed c' = true /\
    stderrLog c' = stderrLog started.
Proof.
  intros pre.
  assert (Hpre : Forall quietEvent pre)
    by (repeat constructor).
  split; [exact Hpre|]. split; [reflexivity|].
  exact (end_of_stream_ends_the_program false pre [Done] started
           Hpre eq_refl).
Defined.

(** Witness of X17: three benign reports before the child's status. *)
Lemma benign_reports_change_nothing_witness :
  let noise := [LogErr None; LogErr (Some io_EOF);
                LogErr (Some (errorString "read |0: bad file descriptor"))] in
  Forall benignReport noise /\
  mainLoop false (noise ++ [Waited None]) started
  = mainLoop false [Waited None] started.
Proof.
  intros noise.
  assert (Hnoise : Forall benignReport noise)
    by (repeat constructor).
  split; [exact Hnoise|].
  exact (benign_reports_change_nothing false noise [Waited None] started
           Hnoise).
Defined.

(** Witness of X18: three lines, the second one in fragments. *)
Lemma loop_deliveries_witness :
  let ds := [Whole (Slice.ofString " one ");
             Fragmented (Slice.ofString "0123456789ABCDEFGHIJ")
                        [Slice.ofString "KLMNOPQRSTUVWXYZabcd"]
                        (Slice.ofString "xyz");
             Whole (Slice.ofString "three")] in
  let outs := [Slice.mk (bytes "one") (bytes " ");
               Slice.mk (bytes "0123456...") (bytes "ABCDEFGHIJ");
               Slice.mk (bytes "three") []] in
  Forall2 (fun d out => boundedLine 10 (firstPart d) = Some out) ds outs /\
  (forall (w : list (list byte)) p, snd (Write w p) = None) /\
  lastWasPrefix fresh = false /\
  written (fst (loop 10 (concat (map readsOf ds)) fresh))
  = [bytes "one"; bytes "0123456..."; bytes "three"].
Proof.
  intros ds outs.
  assert (Hall : Forall2 (fun d out => boundedLine 10 (firstPart d) = Some out)
                         ds outs)
    by (repeat constructor).
  assert (Hsink : forall (w : list (list byte)) p, snd (Write w p) = None)
    by reflexivity.
  split; [exact Hall|]. split; [exact Hsink|]. split; [reflexivity|].
  exact (proj1 (loop_deliveries 10 ds outs Hall Hsink fresh eq_refl)).
Defined.

(** Witness of X19: the recorder never fails. *)
Lemma report_is_not_EOF_witness :
  let reads := [Line (Slice.ofString "hello") false; Failed io_EOF] in
  (forall (w : list (list byte)) p, snd (Write w p) <> Some io_EOF) /\
  snd (loop 10 reads fresh) <> Reported io_EOF.
Proof.
  intros reads.
  assert (Hsink : forall (w : list (list byte)) p,
            snd (Write w p) <> Some io_EOF)
    by (intros w p; discriminate).
  split; [exact Hsink|].
  exact (report_is_not_EOF 10 reads fresh Hsink).
Defined.
